(** * simple-pubsub: the publish/subscribe service, its queue and the machines

    A shallow embedding of [src/app.ts] and [src/utils.ts] (the [Queue] class)
    and the properties of the natural-language specification that are stated
    about them.

    Modelling conventions.
    - JavaScript objects that are mutated and shared live in explicit stores:
      the linked-list nodes of a [Queue] in the queue's node store, the
      [Machine] objects in the world's machine store.  A reference is the
      index of the object in its store.
    - Stock levels and amounts are JavaScript numbers whose value is an
      integer (the spec's [quantity: integer]), written as the integer in
      [Z].  Their sum is the sum that JavaScript computes: the exact sum
      rounded to the nearest double, ties to even, which is the exact sum on
      the safe integers and beyond them may not be.  Fractions, [NaN] and
      the infinities (sums of magnitude [2 ^ 1024] and more) are not
      modelled.
    - [Date.now()] is an oracle [clock : nat -> Z]: its [n]-th reading is
      [clock n].  The world counts the readings taken so far.
    - The trace of observations records the [console.debug] line of
      [publish], the entries of [_handle] and the entries of the [handle]
      methods, the latter as the spies of the tests record them
      ([jest.spyOn(subscriber, "handle")]): [handle] itself writes the
      record, whoever calls it.
    - An [async] function runs synchronously up to its first [await]; the
      rest of it is parked and resumed from the microtask queue once the
      running script has finished.  The world counts the parked
      [_processEvents] activations. *)

From stdpp Require Import gmap strings list fin_maps.

Open Scope Z_scope.

(** ** utils.ts: the linked-list queue *)

Module Queue.
Section Queue.
Context {T : Type}.

(** [class LinkedList<T>]: one node; [next] refers to another node. *)
Record LinkedList := mkLinkedList { value : T; next : option nat }.

(** [class Queue<T>]: [head] and [tail] refer to nodes of the store;
    [fresh] is the address the next [new LinkedList] gets. *)
Record t := mk {
  store : gmap nat LinkedList;
  fresh : nat;
  head : option nat;
  tail : option nat
}.

(** [constructor()] *)
Definition new : t :=
  {| store := ∅; fresh := O; head := None; tail := None |}.

(** [enqueue(item)] *)
Definition enqueue (item : T) (q : t) : t :=
  let a := fresh q in
  let newNode := {| value := item; next := None |} in
  match tail q with
  | None =>
      {| store := <[a := newNode]> (store q); fresh := S a;
         head := Some a; tail := Some a |}
  | Some tl =>
      {| store := alter (λ n, {| value := value n; next := Some a |}) tl
                    (<[a := newNode]> (store q));
         fresh := S a; head := head q; tail := Some a |}
  end.

(** [dequeue()].  The answer is [Some item] when an item was removed and
    [None] when there was none; what the caller gets is [returned] of it
    (below): the item itself, or [undefined].  A reference always leads to
    an object, so the lookup of [head] fails for no queue the program can
    build; the model answers [None] there. *)
Definition dequeue (q : t) : option T * t :=
  match head q with
  | None => (None, q)
  | Some h =>
      match store q !! h with
      | None => (None, q)
      | Some n =>
          let item := value n in
          match next n with
          | None =>
              (Some item,
               {| store := store q; fresh := fresh q;
                  head := None; tail := None |})
          | Some h' =>
              (Some item,
               {| store := store q; fresh := fresh q;
                  head := Some h'; tail := tail q |})
          end
      end
  end.

(** The chain of nodes from address [a]: it carries [x] and then the items
    of [l], and its last node, at address [last], has no successor. *)
Fixpoint chain (s : gmap nat LinkedList) (a : nat) (x : T) (l : list T)
    (last : nat) : Prop :=
  match l with
  | [] => s !! a = Some {| value := x; next := None |} ∧ last = a
  | y :: l' =>
      ∃ b, s !! a = Some {| value := x; next := Some b |} ∧ chain s b y l' last
  end.

(** [represents q l]: the queue object [q] holds the items [l], head first. *)
Definition represents (q : t) (l : list T) : Prop :=
  (∀ a, is_Some (store q !! a) → (a < fresh q)%nat) ∧
  match l with
  | [] => head q = None ∧ tail q = None
  | x :: l' => ∃ a z, head q = Some a ∧ tail q = Some z ∧ chain (store q) a x l' z
  end.

(** A client of the queue: a sequence of calls, and the answers of the
    [dequeue] calls among them. *)
Inductive call := Enqueue (item : T) | Dequeue.

Fixpoint run (cs : list call) (q : t) : list (option T) * t :=
  match cs with
  | [] => ([], q)
  | Enqueue item :: cs' => run cs' (enqueue item q)
  | Dequeue :: cs' =>
      let '(r, q') := dequeue q in
      let '(rs, q'') := run cs' q' in
      (r :: rs, q'')
  end.

(** The contract of the specification, on plain lists: [enqueue] appends
    at the tail, [dequeue] removes and returns the head or signals
    "empty". *)
Definition fifo_enqueue (item : T) (l : list T) : list T := l ++ [item].

Definition fifo_dequeue (l : list T) : option T * list T :=
  match l with
  | [] => (None, [])
  | x :: l' => (Some x, l')
  end.

Fixpoint fifo_run (cs : list call) (l : list T) : list (option T) * list T :=
  match cs with
  | [] => ([], l)
  | Enqueue item :: cs' => fifo_run cs' (fifo_enqueue item l)
  | Dequeue :: cs' =>
      let '(r, l') := fifo_dequeue l in
      let '(rs, l'') := fifo_run cs' l' in
      (r :: rs, l'')
  end.
End Queue.

(** The value a call [dequeue()] returns, of type [T | undefined], for a
    queue whose items may themselves be [undefined] (item type [option U],
    with [None] for [undefined]): the item that was removed, or [undefined]
    when there was none.  The caller cannot tell the two [undefined]s
    apart. *)
Definition returned {U : Type} (answer : option (option U)) : option U :=
  match answer with
  | Some item => item
  | None => None
  end.

Arguments LinkedList : clear implicits.
Arguments t : clear implicits.
Arguments call : clear implicits.
End Queue.

(** ** JavaScript numbers that are integers

    A double holds every integer up to [2 ^ 53] in magnitude; a larger one
    only when it is a multiple of the power of two that leaves 53
    significant bits. *)

(** [Number.MAX_SAFE_INTEGER] *)
Definition MAX_SAFE_INTEGER : Z := 2 ^ 53 - 1.

(** [Number.isSafeInteger], on integers. *)
Definition safe_integer (x : Z) : Prop :=
  - MAX_SAFE_INTEGER ≤ x ≤ MAX_SAFE_INTEGER.

(** The double nearest to the integer [x], ties to the even significand
    (IEEE 754 round-to-nearest-even, for [x] of magnitude below
    [2 ^ 1024]). *)
Definition nearest_double (x : Z) : Z :=
  let a := Z.abs x in
  if a <=? 2 ^ 53 then x
  else
    let e := Z.log2 a - 52 in
    let q := a / 2 ^ e in
    let r := a mod 2 ^ e in
    let half := 2 ^ (e - 1) in
    let q' :=
      if r <? half then q
      else if half <? r then q + 1
      else if Z.even q then q else q + 1 in
    Z.sgn x * (q' * 2 ^ e).

(** [x + y] on numbers: the exact sum, correctly rounded. *)
Definition number_add (x y : Z) : Z := nearest_double (x + y).

(** ** app.ts: events, subscribers, machines *)

Inductive EventType := Sale | Refill | LowStockWarning | StockLevelOk.

#[global] Instance EventType_eq_dec : EqDecision EventType.
Proof. solve_decision. Defined.

#[global] Instance EventType_countable : Countable EventType.
Proof.
  refine (inj_countable'
    (λ t, match t with
          | Sale => 0%nat | Refill => 1%nat
          | LowStockWarning => 2%nat | StockLevelOk => 3%nat
          end)
    (λ n, match n with
          | 0%nat => Sale | 1%nat => Refill
          | 2%nat => LowStockWarning | _ => StockLevelOk
          end) _).
  by intros [].
Defined.

(** The string value of an enum member, as [eventType.toString()] gives it. *)
Definition EventType_toString (t : EventType) : string :=
  match t with
  | Sale => "SALE"
  | Refill => "REFILL"
  | LowStockWarning => "LOW_STOCK_WARNING"
  | StockLevelOk => "STOCK_LEVEL_OK"
  end.

(** The four event classes; [instanceof] is a match on the constructor. *)
Inductive Event :=
  | MachineSaleEvent (_machineId : string) (_sold : Z)
  | MachineRefillEvent (_machineId : string) (_refill : Z)
  | MachineLowStockWarningEvent (_machineId : string)
  | MachineStockLevelOkEvent (_machineId : string).

#[global] Instance Event_eq_dec : EqDecision Event.
Proof. solve_decision. Defined.

Definition type (event : Event) : EventType :=
  match event with
  | MachineSaleEvent _ _ => Sale
  | MachineRefillEvent _ _ => Refill
  | MachineLowStockWarningEvent _ => LowStockWarning
  | MachineStockLevelOkEvent _ => StockLevelOk
  end.

Definition machineId (event : Event) : string :=
  match event with
  | MachineSaleEvent m _ | MachineRefillEvent m _
  | MachineLowStockWarningEvent m | MachineStockLevelOkEvent m => m
  end.

(** The four subscriber classes.  A subscriber object is identified by its
    reference [ref]; [machines] is the array of machine references it was
    constructed with. *)
Inductive SubscriberClass :=
  | MachineSaleSubscriber
  | MachineRefillSubscriber
  | MachineLowStockWarningSubscriber
  | MachineStockLevelOkSubscriber.

#[global] Instance SubscriberClass_eq_dec : EqDecision SubscriberClass.
Proof. solve_decision. Defined.

Record Subscriber := mkSubscriber {
  ref : nat;
  class_of : SubscriberClass;
  machines : list nat
}.

#[global] Instance Subscriber_eq_dec : EqDecision Subscriber.
Proof. solve_decision. Defined.

(** [MachineSubscriber.toString()]: [this.constructor.name]. *)
Definition toString (s : Subscriber) : string :=
  match class_of s with
  | MachineSaleSubscriber => "MachineSaleSubscriber"
  | MachineRefillSubscriber => "MachineRefillSubscriber"
  | MachineLowStockWarningSubscriber => "MachineLowStockWarningSubscriber"
  | MachineStockLevelOkSubscriber => "MachineStockLevelOkSubscriber"
  end.

(** [class Machine]; its [pubSubService] is the one service of the world. *)
Record Machine := mkMachine { id : string; stockLevel : Z }.

(** [Machine.LowStockThreshold]: inclusive, low stock is the range up to 2. *)
Definition LowStockThreshold : Z := 2.

(** What an onlooker sees, in order: the [console.debug] line of [publish],
    the entry of [_handle] with the time it read, and the entry of a
    subscriber's [handle] with the event it was passed. *)
Inductive Observation :=
  | Pushing (event : Event)
  | Handling (event : Event) (handleTime : Z)
  | Called (handler : Subscriber) (event : Event).

#[global] Instance Observation_eq_dec : EqDecision Observation.
Proof. solve_decision. Defined.

(** The state of the program: the fields of the one
    [PublishSubscribeService], the machine objects, the number of
    [Date.now()] readings taken, the number of [_processEvents] activations
    parked at their [await], and the trace. *)
Record World := mkWorld {
  _subscriptions : gmap EventType (list Subscriber);
  _subscriptionTimestamps : gmap string Z;
  _eventQueue : Queue.t Event;
  machine_store : list Machine;
  readings : nat;
  parked : nat;
  trace : list Observation
}.

Definition with_subscriptions (m : gmap EventType (list Subscriber)) (w : World) : World :=
  mkWorld m (_subscriptionTimestamps w) (_eventQueue w) (machine_store w)
          (readings w) (parked w) (trace w).

Definition with_timestamps (m : gmap string Z) (w : World) : World :=
  mkWorld (_subscriptions w) m (_eventQueue w) (machine_store w)
          (readings w) (parked w) (trace w).

Definition with_queue (q : Queue.t Event) (w : World) : World :=
  mkWorld (_subscriptions w) (_subscriptionTimestamps w) q (machine_store w)
          (readings w) (parked w) (trace w).

Definition with_machines (ms : list Machine) (w : World) : World :=
  mkWorld (_subscriptions w) (_subscriptionTimestamps w) (_eventQueue w) ms
          (readings w) (parked w) (trace w).

Definition with_readings (n : nat) (w : World) : World :=
  mkWorld (_subscriptions w) (_subscriptionTimestamps w) (_eventQueue w)
          (machine_store w) n (parked w) (trace w).

Definition with_parked (n : nat) (w : World) : World :=
  mkWorld (_subscriptions w) (_subscriptionTimestamps w) (_eventQueue w)
          (machine_store w) (readings w) n (trace w).

Definition observe (o : Observation) (w : World) : World :=
  mkWorld (_subscriptions w) (_subscriptionTimestamps w) (_eventQueue w)
          (machine_store w) (readings w) (parked w) (trace w ++ [o]).

(** A fresh service with the given machines: empty maps, an empty queue. *)
Definition new_world (ms : list Machine) : World :=
  mkWorld ∅ ∅ Queue.new ms O O [].

(** [Set.prototype.add] and [Set.prototype.delete] on a set kept in
    insertion order; membership is object identity. *)
Definition Set_add (handler : Subscriber) (s : list Subscriber) : list Subscriber :=
  if decide (handler ∈ s) then s else s ++ [handler].

Definition Set_delete (handler : Subscriber) (s : list Subscriber) : list Subscriber :=
  filter (λ h, h ≠ handler) s.

(** [_getSubscriptionKey]: the template string [`${eventType}-${subscriber}`]. *)
Definition _getSubscriptionKey (eventType : EventType) (subscriber : Subscriber) : string :=
  EventType_toString eventType +:+ "-" +:+ toString subscriber.

(** ** app.ts: the service and the machines *)

Section Program.
(** The readings of [Date.now()], in the order they are taken. *)
Variable clock : nat → Z.

Definition Date_now (w : World) : Z * World :=
  (clock (readings w), with_readings (S (readings w)) w).

(** [PublishSubscribeService.subscribe] *)
Definition subscribe (eventType : EventType) (handler : Subscriber)
    (w : World) : World :=
  let w1 :=
    match _subscriptions w !! eventType with
    | None =>
        with_subscriptions (<[eventType := [handler]]> (_subscriptions w)) w
    | Some subscribers =>
        with_subscriptions
          (<[eventType := Set_add handler subscribers]> (_subscriptions w)) w
    end in
  let key := _getSubscriptionKey eventType handler in
  match _subscriptionTimestamps w1 !! key with
  | None =>
      let '(now, w2) := Date_now w1 in
      with_timestamps (<[key := now]> (_subscriptionTimestamps w2)) w2
  | Some _ => w1
  end.

(** [PublishSubscribeService.unsubscribe] *)
Definition unsubscribe (eventType : EventType) (handler : Subscriber)
    (w : World) : World :=
  match _subscriptions w !! eventType with
  | Some subscribers =>
      let w1 :=
        with_subscriptions
          (<[eventType := Set_delete handler subscribers]> (_subscriptions w)) w in
      let key := _getSubscriptionKey eventType handler in
      with_timestamps (delete key (_subscriptionTimestamps w1)) w1
  | None => w
  end.

(** The methods below reach [publish] through the interface
    [IPublishSubscribeService]; they take it as the parameter
    [publish].  [None] is a call that did not return (see [publish]). *)

(** [Machine._addStock], on the machine object at reference [this].  A
    reference always leads to an object; for an index outside the store the
    model leaves the world as it is. *)
Definition _addStock (publish : Event → World → option World)
    (this : nat) (amount : Z) (w : World) : option World :=
  if bool_decide (amount = 0) then Some w
  else
    match machine_store w !! this with
    | None => Some w
    | Some m =>
        let oldStockLevel := stockLevel m in
        let newStockLevel := number_add oldStockLevel amount in
        let w1 :=
          with_machines
            (<[this := {| id := id m; stockLevel := newStockLevel |}]>
               (machine_store w)) w in
        let goesAboveThreshold :=
          (oldStockLevel <=? LowStockThreshold)
          && (LowStockThreshold <? newStockLevel) in
        let goesBelowThreshold :=
          (LowStockThreshold <? oldStockLevel)
          && (newStockLevel <=? LowStockThreshold) in
        if goesAboveThreshold then
          publish (MachineStockLevelOkEvent (id m)) w1
        else if goesBelowThreshold then
          publish (MachineLowStockWarningEvent (id m)) w1
        else Some w1
    end.

(** [Machine.refillStock] *)
Definition refillStock (publish : Event → World → option World)
    (this : nat) (amount : Z) (w : World) : option World :=
  _addStock publish this amount w.

(** [Machine.consumeStock] *)
Definition consumeStock (publish : Event → World → option World)
    (this : nat) (amount : Z) (w : World) : option World :=
  _addStock publish this (- amount) w.

(** [MachineSubscriber.getEventMachine]: the first machine of the
    subscriber's array whose id is the event's. *)
Definition getEventMachine (this : Subscriber) (event : Event)
    (w : World) : option nat :=
  snd <$> list_find
    (λ r, id <$> machine_store w !! r = Some (machineId event))
    (machines this).

(** The bodies of [handle] in the four subscriber classes.  The last two
    only write a line to the console. *)
Definition handle_of_class (publish : Event → World → option World)
    (this : Subscriber) (event : Event) (w : World) : option World :=
  match class_of this, event with
  | MachineSaleSubscriber, MachineSaleEvent _ amountSold =>
      match getEventMachine this event w with
      | Some machine => consumeStock publish machine amountSold w
      | None => Some w
      end
  | MachineRefillSubscriber, MachineRefillEvent _ refillAmount =>
      match getEventMachine this event w with
      | Some machine => refillStock publish machine refillAmount w
      | None => Some w
      end
  | _, _ => Some w
  end.

(** A call [this.handle(event)]: the entry is recorded, then the body of
    the subscriber's class runs. *)
Definition handle (publish : Event → World → option World)
    (this : Subscriber) (event : Event) (w : World) : option World :=
  handle_of_class publish this event (observe (Called this event) w).

(** [Set.prototype.forEach], in insertion order.  No [handle] of this
    program adds to or deletes from a set, so the members visited are
    those present when the iteration starts. *)
Fixpoint Set_forEach (callback : Subscriber → World → option World)
    (s : list Subscriber) (w : World) : option World :=
  match s with
  | [] => Some w
  | handler :: s' => w' ← callback handler w; Set_forEach callback s' w'
  end.

(** The arrow function that [_handle] passes to [forEach]. *)
Definition _handle_each (publish : Event → World → option World)
    (event : Event) (handleTime : Z) (handler : Subscriber)
    (w : World) : option World :=
  let key := _getSubscriptionKey (type event) handler in
  match _subscriptionTimestamps w !! key with
  | Some subscriptionTime =>
      if bool_decide (subscriptionTime ≤ handleTime) then
        handle publish handler event w
      else Some w
  | None => Some w
  end.

(** [PublishSubscribeService._handle]; it has no [await], so a call runs
    to its end. *)
Definition _handle (publish : Event → World → option World)
    (event : Event) (w : World) : option World :=
  let eventType := type event in
  let '(handleTime, w1) := Date_now w in
  let w2 := observe (Handling event handleTime) w1 in
  match _subscriptions w2 !! eventType with
  | Some subscribers =>
      Set_forEach (_handle_each publish event handleTime) subscribers w2
  | None => Some w2
  end.

(** An activation of [PublishSubscribeService._processEvents], from
    [dequeue()] to where it stops: at its end when the queue was empty,
    otherwise parked at [await this._handle(event)] after the call of
    [_handle] has returned.  A parked activation that is resumed goes on
    with [event = this._eventQueue.dequeue()] and the loop test, which is
    this same function. *)
Definition _processEvents (publish : Event → World → option World)
    (w : World) : option World :=
  let '(event, q) := Queue.dequeue (_eventQueue w) in
  let w1 := with_queue q w in
  match event with
  | Some event =>
      w2 ← _handle publish event w1;
      Some (with_parked (S (parked w2)) w2)
  | None => Some w1
  end.

(** [PublishSubscribeService.publish], up to its return to the caller.
    [fuel] bounds the depth of [publish] calls nested through handlers;
    [None] is a call stack that is exhausted. *)
Fixpoint publish (fuel : nat) (event : Event) (w : World) : option World :=
  match fuel with
  | O => None
  | S fuel' =>
      let w1 := observe (Pushing event) w in
      let w2 := with_queue (Queue.enqueue event (_eventQueue w1)) w1 in
      _processEvents (publish fuel') w2
  end.

(** The microtask queue: resume one parked activation, and resume them
    until none is left ([steps] bounds the number of resumptions). *)
Definition resume (fuel : nat) (w : World) : option World :=
  match parked w with
  | O => Some w
  | S n => _processEvents (publish fuel) (with_parked n w)
  end.

Fixpoint run_microtasks (steps fuel : nat) (w : World) : option World :=
  match parked w, steps with
  | O, _ => Some w
  | S _, O => None
  | S _, S steps' => w' ← resume fuel w; run_microtasks steps' fuel w'
  end.

(** A script: calls made one after the other by synchronous code, as the
    tests and the main program do. *)
Inductive Call :=
  | Publish (event : Event)
  | Subscribe (eventType : EventType) (handler : Subscriber)
  | Unsubscribe (eventType : EventType) (handler : Subscriber).

Definition call (fuel : nat) (c : Call) (w : World) : option World :=
  match c with
  | Publish event => publish fuel event w
  | Subscribe eventType handler => Some (subscribe eventType handler w)
  | Unsubscribe eventType handler => Some (unsubscribe eventType handler w)
  end.

Fixpoint script (fuel : nat) (cs : list Call) (w : World) : option World :=
  match cs with
  | [] => Some w
  | c :: cs' => w' ← call fuel c w; script fuel cs' w'
  end.
End Program.

(** ** Reading the trace *)

(** The events passed to [publish], in order. *)
Definition pushed (tr : list Observation) : list Event :=
  omap (λ o, match o with Pushing e => Some e | _ => None end) tr.

(** The events whose delivery began (passed to [_handle]), in order. *)
Definition delivered (tr : list Observation) : list Event :=
  omap (λ o, match o with Handling e _ => Some e | _ => None end) tr.

(** The stock level of the machine at a reference. *)
Definition stock (w : World) (r : nat) : option Z :=
  stockLevel <$> machine_store w !! r.

(** ** Vocabulary of the properties *)

(** The queue of the service is empty: the state between two calls. *)
Definition idle (w : World) : Prop :=
  Queue.head (_eventQueue w) = None ∧ Queue.tail (_eventQueue w) = None.

(** The subscriber set of an event type (empty when the map has none). *)
Definition subscribers (w : World) (t : EventType) : list Subscriber :=
  default [] (_subscriptions w !! t).

(** The enrollment timestamp recorded for a subscriber and an event type. *)
Definition enrollment (w : World) (t : EventType) (h : Subscriber) : option Z :=
  _subscriptionTimestamps w !! _getSubscriptionKey t h.

(** The subscriber has an enrollment timestamp for the type, at or before
    [asOf]. *)
Definition eligible (w : World) (t : EventType) (asOf : Z) (h : Subscriber) : bool :=
  match enrollment w t h with
  | Some subscriptionTime => bool_decide (subscriptionTime ≤ asOf)
  | None => false
  end.

(** How often [handle] of subscriber [h] was entered with event [e]. *)
Definition invocations (h : Subscriber) (e : Event) (tr : list Observation) : nat :=
  length (filter (λ o, o = Called h e) tr).

(** The events that machines publish. *)
Definition derived (e : Event) : bool :=
  match e with
  | MachineLowStockWarningEvent _ | MachineStockLevelOkEvent _ => true
  | _ => false
  end.

(** Every subscriber set holds an object once (they are [Set]s). *)
Definition sets_ok (w : World) : Prop :=
  ∀ t, NoDup (subscribers w t).

(** The enrollment timestamps are readings taken in the past: none exceeds
    the reading the clock gives next. *)
Definition timestamps_past (clock : nat → Z) (w : World) : Prop :=
  ∀ k ts, _subscriptionTimestamps w !! k = Some ts → ts ≤ clock (readings w).

(** The clock never runs backwards. *)
Definition monotone (clock : nat → Z) : Prop :=
  ∀ i j, (i ≤ j)%nat → clock i ≤ clock j.

(** The stock level that [_addStock(amount)] leaves on a machine whose
    stock level is [level]. *)
Definition stock_after (level amount : Z) : Z :=
  if bool_decide (amount = 0) then level else number_add level amount.

(** Several adjustments of one machine in a row, and the stock levels the
    machine passes through. *)
Fixpoint adjustments (publish : Event → World → option World) (this : nat)
    (amounts : list Z) (w : World) : option World :=
  match amounts with
  | [] => Some w
  | amount :: amounts' =>
      w' ← _addStock publish this amount w;
      adjustments publish this amounts' w'
  end.

Fixpoint stock_levels (level : Z) (amounts : list Z) : list Z :=
  match amounts with
  | [] => []
  | amount :: amounts' =>
      stock_after level amount :: stock_levels (stock_after level amount) amounts'
  end.

(** The events a script passes to [publish] itself. *)
Definition published_by (cs : list Call) : list Event :=
  omap (λ c, match c with Publish e => Some e | _ => None end) cs.

(** *** A concrete program, after the tests of the repository

    One machine with three items in stock, a sale subscriber and a
    low-stock subscriber, and a clock that advances by one at each reading. *)
Definition tick_clock (n : nat) : Z := Z.of_nat n.

Definition test_machines : list Machine := [ {| id := "001"; stockLevel := 3 |} ].

Definition saleSubscriber : Subscriber :=
  {| ref := 0; class_of := MachineSaleSubscriber; machines := [0%nat] |}.

Definition relatedSubscriber2 : Subscriber :=
  {| ref := 1; class_of := MachineSaleSubscriber; machines := [0%nat] |}.

Definition lowStockWarningSubscriber : Subscriber :=
  {| ref := 2; class_of := MachineLowStockWarningSubscriber; machines := [0%nat] |}.

Definition test_world : World :=
  subscribe tick_clock LowStockWarning lowStockWarningSubscriber
    (subscribe tick_clock Sale saleSubscriber (new_world test_machines)).

(** Only the sale subscriber is enrolled. *)
Definition enrolled_world : World :=
  subscribe tick_clock Sale saleSubscriber (new_world test_machines).

(** Two sale subscribers and the low-stock subscriber are enrolled. *)
Definition two_sale_world : World :=
  subscribe tick_clock Sale relatedSubscriber2 test_world.

Definition event1 : Event := MachineSaleEvent "001" 1.
Definition event2 : Event := MachineSaleEvent "001" 2.
Definition event3 : Event := MachineSaleEvent "001" 3.

(** An observed entry of [handle] is that of a subscriber that is in the
    set of the event's type and has an enrollment timestamp for it. *)
Definition enrolled (w : World) (o : Observation) : Prop :=
  match o with
  | Called h e =>
      h ∈ subscribers w (type e) ∧ is_Some (enrollment w (type e) h)
  | _ => True
  end.

(** The event an observation is about. *)
Definition event_of (o : Observation) : Event :=
  match o with
  | Pushing e | Handling e _ | Called _ e => e
  end.

(** What a call that starts in [w] and returns in [w'] did, with [tr] the
    observations it added: the registry is as before, the queue is empty
    again, the events whose delivery began are the events pushed, in the
    same order, and the clock was read once for each of them. *)
Record Effect (w w' : World) (tr : list Observation) : Prop := mkEffect {
  eff_subscriptions : _subscriptions w' = _subscriptions w;
  eff_timestamps : _subscriptionTimestamps w' = _subscriptionTimestamps w;
  eff_idle : idle w';
  eff_trace : trace w' = trace w ++ tr;
  eff_fifo : delivered tr = pushed tr;
  eff_readings : readings w' = (readings w + length (delivered tr))%nat;
  eff_enrolled : Forall (enrolled w) tr
}.

(** ** Vocabulary of further properties *)

(** The items a sequence of queue calls enqueues, and the items among the
    answers of its [dequeue] calls, both in order. *)
Definition enqueued {T} (cs : list (Queue.call T)) : list T :=
  omap (λ c, match c with
             | Queue.Enqueue item => Some item
             | Queue.Dequeue => None
             end) cs.

Definition dequeued {T} (answers : list (option T)) : list T :=
  omap (λ answer, answer) answers.

(** The subscribers whose [handle] was entered with event [e], in the
    order of the calls. *)
Definition handlers_called (e : Event) (tr : list Observation) : list Subscriber :=
  omap (λ o, match o with
             | Called h e' => if decide (e' = e) then Some h else None
             | _ => None
             end) tr.

(** The events with which [handle] of subscriber [h] was entered, in the
    order of the calls. *)
Definition received (h : Subscriber) (tr : list Observation) : list Event :=
  omap (λ o, match o with
             | Called h' e => if decide (h' = h) then Some e else None
             | _ => None
             end) tr.

(** The sale subscriber is enrolled for Sale, and the low-stock subscriber
    is enrolled for Sale after it and for LowStockWarning. *)
Definition watching_world : World :=
  subscribe tick_clock LowStockWarning lowStockWarningSubscriber
    (subscribe tick_clock Sale lowStockWarningSubscriber
       (subscribe tick_clock Sale saleSubscriber (new_world test_machines))).

(** The stock adjustment that [handle] of a subscriber asks of the machine
    it finds for an event: the sale subscriber takes the sold quantity of a
    sale event, the refill subscriber adds the quantity of a refill event,
    and there is none in every other case. *)
Definition reacts (h : Subscriber) (e : Event) : option Z :=
  match class_of h, e with
  | MachineSaleSubscriber, MachineSaleEvent _ amountSold => Some (- amountSold)
  | MachineRefillSubscriber, MachineRefillEvent _ refillAmount => Some refillAmount
  | _, _ => None
  end.

(** The machine record that [_addStock(amount)] leaves. *)
Definition adjust (amount : Z) (m : Machine) : Machine :=
  {| id := id m; stockLevel := stock_after (stockLevel m) amount |}.

(** What one call of [h.handle(e)] does to the machine objects [ms]: the
    machine that [getEventMachine] finds is adjusted by what the subscriber
    asks of it. *)
Definition handle_machines (e : Event) (ms : list Machine) (h : Subscriber) : list Machine :=
  match reacts h e, getEventMachine h e (new_world ms) with
  | Some amount, Some r => alter (adjust amount) r ms
  | _, _ => ms
  end.

(** The call [publish(e)] made in [w] returned in [w'], and what it did
    between the entry of [_handle] and its return is to call [handle] of
    the subscribers [hs] with [e], in this order (with [fuel] for the
    [publish] calls that these make). *)
Definition delivers (clock : nat → Z) (fuel : nat) (e : Event)
    (hs : list Subscriber) (w w' : World) : Prop :=
  ∃ q w2,
    Queue.head q = None ∧ Queue.tail q = None
    ∧ Set_forEach (λ h, handle (publish clock fuel) h e) hs
        (observe (Handling e (clock (readings w)))
           (with_readings (S (readings w))
              (with_queue q (observe (Pushing e) w)))) = Some w2
    ∧ w' = with_parked (S (parked w2)) w2.

(** The subscribers that a delivery of [e] begun in [w] calls: the members
    of the set of the event's type whose enrollment timestamp is at or
    before the reading the delivery takes. *)
Definition recipients (clock : nat → Z) (e : Event) (w : World) : list Subscriber :=
  filter (λ h, eligible w (type e) (clock (readings w)) h)
    (subscribers w (type e)).

(** Every exact running sum of [amounts] from [level] is a safe integer. *)
Fixpoint sums_safe (level : Z) (amounts : list Z) : Prop :=
  match amounts with
  | [] => True
  | amount :: amounts' =>
      safe_integer (level + amount) ∧ sums_safe (level + amount) amounts'
  end.

(** A call [h.handle(e)] that does not reach a machine: the subscriber's
    class does not react to the event's class, or its array has no machine
    with the event's machine id. *)
Definition ignores (w : World) (e : Event) (h : Subscriber) : Prop :=
  reacts h e = None ∨ getEventMachine h e w = None.

(** The events of a machine alternate: StockLevelOk first when [low] holds,
    LowStockWarning first otherwise, and then the other one, and so on. *)
Fixpoint alternating (low : bool) (machine : string) (es : list Event) : Prop :=
  match es with
  | [] => True
  | e :: es' =>
      e = (if low then MachineStockLevelOkEvent machine
           else MachineLowStockWarningEvent machine)
      ∧ alternating (negb low) machine es'
  end.

(** *** The main program of app.ts

    [new Machine(id, pubSubService)] starts with 10 items.  The program makes
    the machines "001", "002" and "003", one subscriber of each class over
    the array of the three, subscribes each to its event type and publishes
    the events it generated; the events are random, so they are the input
    [events] here. *)
Definition new_Machine (machine : string) : Machine :=
  {| id := machine; stockLevel := 10 |}.

Definition main_machines : list Machine :=
  map new_Machine ["001"; "002"; "003"].

Definition main_saleSubscriber : Subscriber :=
  {| ref := 0; class_of := MachineSaleSubscriber;
     machines := [0; 1; 2]%nat |}.

Definition main_refillSubscriber : Subscriber :=
  {| ref := 1; class_of := MachineRefillSubscriber;
     machines := [0; 1; 2]%nat |}.

Definition main_lowStockWarningSubscriber : Subscriber :=
  {| ref := 2; class_of := MachineLowStockWarningSubscriber;
     machines := [0; 1; 2]%nat |}.

Definition main_stockLevelOkSubscriber : Subscriber :=
  {| ref := 3; class_of := MachineStockLevelOkSubscriber;
     machines := [0; 1; 2]%nat |}.

Definition main_setup : list Call :=
  [ Subscribe Sale main_saleSubscriber;
    Subscribe Refill main_refillSubscriber;
    Subscribe LowStockWarning main_lowStockWarningSubscriber;
    Subscribe StockLevelOk main_stockLevelOkSubscriber ].

Definition main (clock : nat → Z) (fuel : nat) (events : list Event) : option World :=
  script clock fuel (main_setup ++ map Publish events) (new_world main_machines).

(** What an event says about the stock of a machine: a sale of the machine
    takes its quantity, a refill of the machine adds its quantity, every
    other event says nothing; and the sum over a list of events. *)
Definition change (machine : string) (e : Event) : Z :=
  match e with
  | MachineSaleEvent m sold => if decide (m = machine) then - sold else 0
  | MachineRefillEvent m refill => if decide (m = machine) then refill else 0
  | _ => 0
  end.

Definition net (machine : string) (events : list Event) : Z :=
  foldr (λ e acc, change machine e + acc) 0 events.

(** From the stock levels [a], [b] and [c] of the three machines, each event
    of the list leaves safe integers: the books stay within the integers
    that a double holds exactly. *)
Fixpoint books_safe (a b c : Z) (events : list Event) : Prop :=
  match events with
  | [] => True
  | e :: events' =>
      safe_integer (a + change "001" e)
      ∧ safe_integer (b + change "002" e)
      ∧ safe_integer (c + change "003" e)
      ∧ books_safe (a + change "001" e) (b + change "002" e)
          (c + change "003" e) events'
  end.

(** The events that [eventGenerator] makes: a sale of 1 or 2 items, or a
    refill of 3 to 5. *)
Definition generated (e : Event) : Prop :=
  match e with
  | MachineSaleEvent _ saleQty => 1 ≤ saleQty ≤ 2
  | MachineRefillEvent _ refillQty => 3 ≤ refillQty ≤ 5
  | _ => False
  end.

(** The states of the main program between two of its [publish] calls: the
    three machines with stock levels [a], [b] and [c], and the sale and the
    refill subscriber enrolled, alone, for their types. *)
Definition main_state (clock : nat → Z) (a b c : Z) (w : World) : Prop :=
  idle w
  ∧ machine_store w
    = [ {| id := "001"; stockLevel := a |}; {| id := "002"; stockLevel := b |};
        {| id := "003"; stockLevel := c |} ]
  ∧ subscribers w Sale = [main_saleSubscriber]
  ∧ subscribers w Refill = [main_refillSubscriber]
  ∧ is_Some (enrollment w Sale main_saleSubscriber)
  ∧ is_Some (enrollment w Refill main_refillSubscriber)
  ∧ timestamps_past clock w.

(** ** Proofs about the queue *)

Module QueueFacts.
Import Queue.
Section QueueFacts.
Context {T : Type}.
Implicit Types (q : Queue.t T) (l : list T) (s : gmap nat (LinkedList T)).

Lemma chain_last_node s a x l z :
  chain s a x l z → ∃ v, s !! z = Some {| value := v; next := None |}.
Proof.
  revert a x. induction l as [|y l IH]; simpl; intros a x.
  - intros [H ->]. eauto.
  - intros (b & _ & H). eauto.
Qed.

Lemma chain_snoc s a x l z c item :
  s !! c = None →
  chain s a x l z →
  chain (alter (λ n, {| value := value n; next := Some c |}) z
           (<[c := {| value := item; next := None |}]> s))
        a x (l ++ [item]) c.
Proof.
  intros Hc. revert a x. induction l as [|y l IH]; simpl; intros a x.
  - intros [Ha ->]. exists c.
    assert (c ≠ a) by (intros ->; congruence).
    split.
    + rewrite lookup_alter_eq, lookup_insert_ne, Ha by done. done.
    + split; [|done].
      rewrite lookup_alter_ne, lookup_insert_eq by done. done.
  - intros (b & Ha & Hb). exists b. split; [|by apply IH].
    destruct (chain_last_node _ _ _ _ _ Hb) as [v Hz].
    assert (z ≠ a) by (intros ->; congruence).
    assert (c ≠ a) by (intros ->; congruence).
    rewrite lookup_alter_ne, lookup_insert_ne by done. done.
Qed.

Lemma represents_new : represents (@new T) [].
Proof.
  split; [|done]. intros a [n Hn]. simpl in Hn. by rewrite lookup_empty in Hn.
Qed.

Lemma represents_enqueue q l item :
  represents q l → represents (enqueue item q) (fifo_enqueue item l).
Proof.
  intros [Hfresh Hl].
  assert (store q !! fresh q = None) as Hnone.
  { destruct (store q !! fresh q) eqn:E; [|done].
    assert (fresh q < fresh q)%nat by (apply Hfresh; eauto). lia. }
  unfold enqueue, fifo_enqueue. destruct l as [|x l]; simpl in *.
  - destruct Hl as [Hh Ht]. rewrite Ht. split; simpl.
    + intros a [n Hn]. destruct (decide (fresh q = a)) as [<-|Hne]; [lia|].
      rewrite lookup_insert_ne in Hn by done.
      assert (a < fresh q)%nat by (apply Hfresh; eauto). lia.
    + exists (fresh q), (fresh q). by rewrite lookup_insert_eq.
  - destruct Hl as (a & z & Hh & Ht & Hc). rewrite Ht. split; simpl.
    + intros b [n Hn].
      destruct (decide (fresh q = b)) as [<-|Hne]; [lia|].
      assert (is_Some (store q !! b)) as Hb.
      { destruct (decide (z = b)) as [<-|Hzb].
        - destruct (chain_last_node _ _ _ _ _ Hc) as [v Hv]. eauto.
        - rewrite lookup_alter_ne, lookup_insert_ne in Hn by done. eauto. }
      apply Hfresh in Hb. lia.
    + exists a, (fresh q). split; [done|]. split; [done|].
      by apply chain_snoc.
Qed.

Lemma represents_dequeue q l :
  represents q l →
  fst (dequeue q) = fst (fifo_dequeue l) ∧
  represents (snd (dequeue q)) (snd (fifo_dequeue l)).
Proof.
  intros [Hfresh Hl]. unfold dequeue. destruct l as [|x l]; simpl in *.
  - destruct Hl as [Hh Ht]. rewrite Hh. simpl. split; [done|].
    split; [done|]. simpl. done.
  - destruct Hl as (a & z & Hh & Ht & Hc). rewrite Hh.
    destruct l as [|y l]; simpl in *.
    + destruct Hc as [Ha ->]. rewrite Ha. simpl. split; [done|].
      split; [done|]. simpl. done.
    + destruct Hc as (b & Ha & Hb). rewrite Ha. simpl. split; [done|].
      split; [done|]. simpl. eauto.
Qed.

Lemma run_refines cs : ∀ q l,
  represents q l →
  fst (run cs q) = fst (fifo_run cs l) ∧
  represents (snd (run cs q)) (snd (fifo_run cs l)).
Proof.
  induction cs as [|[item|] cs IH]; intros q l Hq; simpl.
  - done.
  - apply IH. by apply represents_enqueue.
  - destruct (represents_dequeue q l Hq) as [Hr Hq'].
    destruct (dequeue q) as [r q'], (fifo_dequeue l) as [r' l'].
    simpl in *. subst r'.
    specialize (IH q' l' Hq').
    destruct (run cs q') as [rs q''], (fifo_run cs l') as [rs' l''].
    simpl in *. destruct IH as [-> ?]. done.
Qed.

Lemma fifo_run_enqueues (xs : list T) cs l :
  fifo_run (map Enqueue xs ++ cs) l = fifo_run cs (l ++ xs).
Proof.
  revert l. induction xs as [|x xs IH]; intros l; simpl.
  - by rewrite app_nil_r.
  - rewrite IH. unfold fifo_enqueue. by rewrite <- app_assoc.
Qed.

Lemma fifo_run_dequeues (xs : list T) cs :
  fifo_run (repeat Dequeue (length xs) ++ cs) xs
  = ((Some <$> xs) ++ fst (fifo_run cs []), snd (fifo_run cs [])).
Proof.
  induction xs as [|x xs IH]; simpl.
  - by destruct (fifo_run cs []).
  - by rewrite IH.
Qed.

(** C6.  The queue is a strict FIFO.  For every sequence of [enqueue] and
    [dequeue] calls on a new queue, the answers of the [dequeue] calls are
    those of the list contract ([enqueue] appends at the tail, [dequeue]
    removes and returns the head, or answers "empty" when there is none),
    and the queue then holds the items the contract says, in that order.
    In particular a queue that was filled and drained to empty answers
    "empty" and can be filled and drained again: the items come out in
    the order they went in, both times. *)
Theorem queue_is_fifo (cs : list (call T)) (xs ys : list T) :
  fst (run cs new) = fst (fifo_run cs [])
  ∧ represents (snd (run cs new)) (snd (fifo_run cs []))
  ∧ fst (run (map Enqueue xs ++ repeat Dequeue (length xs) ++ [Dequeue]
              ++ map Enqueue ys ++ repeat Dequeue (length ys) ++ [Dequeue])
           new)
    = (Some <$> xs) ++ [None] ++ (Some <$> ys) ++ [None].
Proof.
  split_and!; try apply run_refines, represents_new.
  destruct (run_refines
              (map Enqueue xs ++ repeat Dequeue (length xs) ++ [Dequeue]
               ++ map Enqueue ys ++ repeat Dequeue (length ys) ++ [Dequeue])
              new [] represents_new) as [-> _].
  rewrite fifo_run_enqueues, fifo_run_dequeues. simpl.
  rewrite fifo_run_enqueues, fifo_run_dequeues. simpl. done.
Qed.

Lemma fifo_run_conserves (cs : list (call T)) : ∀ l,
  dequeued (fst (fifo_run cs l)) ++ snd (fifo_run cs l) = l ++ enqueued cs.
Proof.
  induction cs as [|[item|] cs IH]; intros l; simpl.
  - by rewrite app_nil_r.
  - rewrite IH. unfold fifo_enqueue. by rewrite <- app_assoc.
  - destruct l as [|x l]; simpl.
    + specialize (IH []). destruct (fifo_run cs []) as [rs l']. exact IH.
    + specialize (IH l). destruct (fifo_run cs l) as [rs l']. simpl in *.
      unfold dequeued in *. simpl. by rewrite IH.
Qed.

(** X1.  The queue neither loses, invents, duplicates nor reorders items:
    after any sequence of calls on a queue that holds the items [l0], the
    items the [dequeue] calls returned, followed by the items the queue
    holds now, are the items of [l0] followed by the items enqueued, in
    that order. *)
Theorem queue_conserves_items (cs : list (call T)) q l0 :
  represents q l0 →
  ∃ l, represents (snd (run cs q)) l
       ∧ dequeued (fst (run cs q)) ++ l = l0 ++ enqueued cs.
Proof.
  intros Hq. destruct (run_refines cs q l0 Hq) as [Hans Hrep].
  exists (snd (fifo_run cs l0)). split; [done|].
  rewrite Hans. apply fifo_run_conserves.
Qed.

End QueueFacts.

(** X2.  On a queue whose items may be [undefined], [dequeue()] returns
    [undefined] exactly when the queue holds no item or the item at its head
    is [undefined]; so on a queue that holds no [undefined] item (such as
    the event queue of the service) it returns [undefined] exactly when the
    queue is empty.  A call on the empty queue leaves the queue object as
    it was; a call that returns an [undefined] item has removed it. *)
Theorem dequeue_undefined_iff_empty {U : Type}
    (q : Queue.t (option U)) (l : list (option U)) :
  represents q l →
  (returned (fst (dequeue q)) = None ↔ l = [] ∨ ∃ l', l = None :: l')
  ∧ (Forall is_Some l → (returned (fst (dequeue q)) = None ↔ l = []))
  ∧ (l = [] → snd (dequeue q) = q)
  ∧ (∀ l', l = None :: l' →
       returned (fst (dequeue q)) = None ∧ represents (snd (dequeue q)) l').
Proof.
  intros Hq. destruct (represents_dequeue q l Hq) as [Hans Hrep].
  rewrite Hans. split_and!.
  - destruct l as [|[x|] l]; simpl.
    + split; [by left|done].
    + split; [done|]. intros [?|[l' ?]]; done.
    + split; [|done]. intros _. right. by exists l.
  - intros Hall. destruct l as [|[x|] l]; simpl; [done|done|].
    apply Forall_cons in Hall as [[? ?] _]. done.
  - intros ->. destruct Hq as [_ [Hh _]]. unfold dequeue. by rewrite Hh.
  - intros l' ->. split; [done|]. exact Hrep.
Qed.
End QueueFacts.

(** ** Proofs about numbers *)

Lemma nearest_double_safe x : safe_integer x → nearest_double x = x.
Proof.
  intros [Hl Hu]. unfold nearest_double.
  destruct (Z.leb_spec (Z.abs x) (2 ^ 53)) as [_|H]; [done|].
  unfold MAX_SAFE_INTEGER in *. lia.
Qed.

Lemma nearest_double_large a :
  2 ^ 53 < a →
  let e := Z.log2 a - 52 in
  let q := a / 2 ^ e in
  let r := a mod 2 ^ e in
  let half := 2 ^ (e - 1) in
  2 ^ 53 ≤ (if r <? half then q
            else if half <? r then q + 1
            else if Z.even q then q else q + 1) * 2 ^ e.
Proof.
  intros Ha e q r half.
  assert (53 ≤ Z.log2 a) as Hlog.
  { change 53 with (Z.log2 (2 ^ 53)). apply Z.log2_le_mono. lia. }
  assert (1 ≤ e) as He by (unfold e; lia).
  assert (2 ^ 52 * 2 ^ e ≤ a) as Hlow.
  { rewrite <- Z.pow_add_r by lia. unfold e.
    replace (52 + (Z.log2 a - 52)) with (Z.log2 a) by lia.
    apply Z.log2_spec. lia. }
  assert (2 ≤ 2 ^ e) as Hpow.
  { change 2 with (2 ^ 1) at 1. apply Z.pow_le_mono_r; lia. }
  assert (2 ^ 52 ≤ q) as Hq.
  { unfold q. apply Z.div_le_lower_bound; lia. }
  assert (2 ^ 53 ≤ q * 2 ^ e) as Hres.
  { change (2 ^ 53) with (2 ^ 52 * 2). apply Z.mul_le_mono_nonneg; lia. }
  destruct (r <? half); [done|].
  destruct (half <? r); [nia|]. destruct (Z.even q); [done|nia].
Qed.

(** Rounding keeps an integer on its side of every integer of magnitude
    below [2 ^ 53]. *)
Lemma nearest_double_side x t :
  Z.abs t < 2 ^ 53 → (nearest_double x ≤ t ↔ x ≤ t).
Proof.
  intros Ht. unfold nearest_double.
  destruct (Z.leb_spec (Z.abs x) (2 ^ 53)) as [_|H]; [done|].
  pose proof (nearest_double_large (Z.abs x) H) as Hbig. simpl in Hbig.
  destruct (Z.abs_spec x) as [[Hx Habs]|[Hx Habs]].
  - rewrite Z.sgn_pos by lia. lia.
  - rewrite Z.sgn_neg by lia. lia.
Qed.

Lemma number_add_safe x y : safe_integer (x + y) → number_add x y = x + y.
Proof. apply nearest_double_safe. Qed.

Lemma number_add_side x y :
  number_add x y ≤ LowStockThreshold ↔ x + y ≤ LowStockThreshold.
Proof. apply nearest_double_side. done. Qed.

Lemma stock_after_zero level : stock_after level 0 = level.
Proof. done. Qed.

Lemma stock_after_nonzero level amount :
  amount ≠ 0 → stock_after level amount = number_add level amount.
Proof. intros H. unfold stock_after. by rewrite bool_decide_false. Qed.

Lemma stock_after_safe level amount :
  safe_integer (level + amount) → stock_after level amount = level + amount.
Proof.
  intros H. unfold stock_after. case_bool_decide as Ha.
  - subst amount. lia.
  - by apply number_add_safe.
Qed.

Lemma stock_after_side level amount :
  stock_after level amount ≤ LowStockThreshold
  ↔ level + amount ≤ LowStockThreshold.
Proof.
  unfold stock_after. case_bool_decide as Ha.
  - subst amount. by rewrite Z.add_0_r.
  - apply number_add_side.
Qed.

(** ** Proofs about the service *)

Section ServiceFacts.
Variable clock : nat → Z.

Lemma dequeue_enqueue_idle (x : Event) (q : Queue.t Event) :
  Queue.head q = None → Queue.tail q = None →
  ∃ q', Queue.dequeue (Queue.enqueue x q) = (Some x, q')
        ∧ Queue.head q' = None ∧ Queue.tail q' = None.
Proof.
  intros Hh Ht. unfold Queue.enqueue, Queue.dequeue. rewrite Ht. simpl.
  rewrite lookup_insert_eq. simpl. eauto.
Qed.

Lemma handle_derived publish h d w :
  derived d = true → handle_of_class publish h d w = Some w.
Proof. unfold handle_of_class. by destruct (class_of h), d. Qed.

(** Delivery of an event that no handler reacts to. *)
Lemma forEach_derived publish d asOf l : derived d = true → ∀ w,
  ∃ w', Set_forEach (_handle_each publish d asOf) l w = Some w'
    ∧ _subscriptions w' = _subscriptions w
    ∧ _subscriptionTimestamps w' = _subscriptionTimestamps w
    ∧ _eventQueue w' = _eventQueue w
    ∧ machine_store w' = machine_store w
    ∧ readings w' = readings w
    ∧ parked w' = parked w
    ∧ trace w' = trace w
        ++ map (λ h, Called h d) (filter (λ h, eligible w (type d) asOf h) l).
Proof.
  intros Hd. induction l as [|h l IH]; intros w; simpl.
  - eexists. split; [done|]. rewrite app_nil_r. done.
  - assert (_handle_each publish d asOf h w =
            Some (if eligible w (type d) asOf h
                  then observe (Called h d) w else w)) as ->.
    { unfold _handle_each, handle, eligible, enrollment.
      destruct (_subscriptionTimestamps w !! _); [|done].
      case_bool_decide; [|done]. by rewrite handle_derived. }
    simpl. destruct (eligible w (type d) asOf h) eqn:E.
    + rewrite filter_cons_True by (by apply Is_true_true).
      destruct (IH (observe (Called h d) w))
        as (w' & -> & ? & ? & ? & ? & ? & ? & Htr).
      eexists. split; [done|]. repeat split; try done.
      rewrite Htr. simpl. rewrite <- app_assoc. done.
    + rewrite filter_cons_False by (by apply Is_true_false).
      destruct (IH w) as (w' & -> & ? & ? & ? & ? & ? & ? & Htr).
      eexists. split; [done|]. repeat split; done.
Qed.

Lemma publish_derived n d w :
  derived d = true → idle w →
  ∃ w', publish clock (S n) d w = Some w'
    ∧ _subscriptions w' = _subscriptions w
    ∧ _subscriptionTimestamps w' = _subscriptionTimestamps w
    ∧ idle w'
    ∧ machine_store w' = machine_store w
    ∧ readings w' = S (readings w)
    ∧ parked w' = S (parked w)
    ∧ trace w' = trace w
        ++ Pushing d :: Handling d (clock (readings w))
        :: map (λ h, Called h d)
             (filter (λ h, eligible w (type d) (clock (readings w)) h)
                (subscribers w (type d))).
Proof.
  intros Hd [Hh Ht]. simpl. unfold _processEvents. simpl.
  destruct (dequeue_enqueue_idle d _ Hh Ht) as (q' & -> & Hh' & Ht').
  simpl. unfold _handle. simpl. unfold subscribers.
  destruct (_subscriptions w !! type d) as [l|] eqn:E; simpl.
  - edestruct (forEach_derived (publish clock n) d (clock (readings w)) l Hd)
      as (w' & -> & ? & ? & Hq & ? & ? & ? & Htr).
    simpl in *. eexists. split; [done|]. simpl.
    split_and!; simpl; try congruence.
    + split; simpl; congruence.
    + rewrite Htr, <- !app_assoc. done.
  - eexists. split; [done|].
    split_and!; simpl; try done.
    rewrite <- !app_assoc. done.
Qed.


(** *** The bundle [Effect] *)

Lemma pushed_app tr1 tr2 : pushed (tr1 ++ tr2) = pushed tr1 ++ pushed tr2.
Proof. apply omap_app. Qed.

Lemma delivered_app tr1 tr2 :
  delivered (tr1 ++ tr2) = delivered tr1 ++ delivered tr2.
Proof. apply omap_app. Qed.

Lemma invocations_app h e tr1 tr2 :
  invocations h e (tr1 ++ tr2) = (invocations h e tr1 + invocations h e tr2)%nat.
Proof. unfold invocations. by rewrite filter_app, length_app. Qed.

Lemma Effect_refl w : idle w → Effect w w [].
Proof. intros. split; simpl; rewrite ?app_nil_r; auto. Qed.

Lemma Effect_trans w w1 w2 tr1 tr2 :
  Effect w w1 tr1 → Effect w1 w2 tr2 → Effect w w2 (tr1 ++ tr2).
Proof.
  intros [S1 T1 I1 R1 F1 C1 E1] [S2 T2 I2 R2 F2 C2 E2]. split.
  - congruence.
  - congruence.
  - done.
  - rewrite R2, R1, app_assoc. done.
  - rewrite delivered_app, pushed_app. congruence.
  - rewrite delivered_app, length_app. lia.
  - apply Forall_app. split; [done|].
    eapply Forall_impl; [exact E2|]. intros [| |h e]; simpl; try done.
    unfold subscribers, enrollment. by rewrite S1, T1.
Qed.

(** The start of a call may differ in the machines only. *)
Lemma Effect_from w0 w w' tr :
  _subscriptions w = _subscriptions w0 →
  _subscriptionTimestamps w = _subscriptionTimestamps w0 →
  trace w = trace w0 → readings w = readings w0 →
  Effect w0 w' tr → Effect w w' tr.
Proof.
  intros HS HT HR HC [S1 T1 I1 R1 F1 C1 E1]. split; try congruence.
  eapply Forall_impl; [exact E1|]. intros [| |h e]; simpl; try done.
  unfold subscribers, enrollment. by rewrite HS, HT.
Qed.

Lemma publish_derived_effect n d w :
  derived d = true → idle w →
  ∃ w' tr, publish clock (S n) d w = Some w'
    ∧ Effect w w' tr
    ∧ Forall (λ o, derived (event_of o) = true) tr
    ∧ pushed tr = [d]
    ∧ machine_store w' = machine_store w.
Proof.
  intros Hd Hi.
  destruct (publish_derived n d w Hd Hi)
    as (w' & Hp & HS & HT & Hi' & HM & HC & _ & HR).
  eexists _, _. split; [exact Hp|].
  assert (∀ l : list Subscriber,
            omap (λ o, match o with Pushing e => Some e | _ => None end)
              (map (λ h, Called h d) l) = []) as Hnil1
    by (induction l; simpl; auto).
  assert (∀ l : list Subscriber,
            omap (λ o, match o with Handling e _ => Some e | _ => None end)
              (map (λ h, Called h d) l) = []) as Hnil2
    by (induction l; simpl; auto).
  split_and!; [split|..]; try done.
  - unfold delivered, pushed. simpl. by rewrite Hnil1, Hnil2.
  - unfold delivered. simpl. rewrite Hnil2. simpl. lia.
  - repeat constructor. apply Forall_forall. intros o Ho.
    apply list_elem_of_fmap in Ho as (h & -> & Hh).
    apply list_elem_of_filter in Hh as [Hel Hin]. simpl. split; [done|].
    unfold eligible in Hel. by destruct (enrollment w (type d) h).
  - repeat constructor; try done. apply Forall_forall. intros o Ho.
    apply list_elem_of_fmap in Ho as (h & -> & _). done.
  - unfold pushed. simpl. by rewrite Hnil1.
Qed.

(** *** [Machine._addStock] *)

Lemma _addStock_zero publish this w : _addStock publish this 0 w = Some w.
Proof. done. Qed.

Lemma _addStock_no_machine publish this amount w :
  machine_store w !! this = None → _addStock publish this amount w = Some w.
Proof. intros H. unfold _addStock. rewrite H. by case_bool_decide. Qed.

Lemma _addStock_spec n this amount m w :
  idle w → machine_store w !! this = Some m → amount ≠ 0 →
  ∃ w' tr, _addStock (publish clock (S n)) this amount w = Some w'
    ∧ Effect w w' tr
    ∧ Forall (λ o, derived (event_of o) = true) tr
    ∧ machine_store w' =
        <[this := {| id := id m;
                     stockLevel := number_add (stockLevel m) amount |}]>
          (machine_store w)
    ∧ ((stockLevel m ≤ LowStockThreshold
        ∧ LowStockThreshold < stockLevel m + amount
        ∧ pushed tr = [MachineStockLevelOkEvent (id m)])
       ∨ (LowStockThreshold < stockLevel m
          ∧ stockLevel m + amount ≤ LowStockThreshold
          ∧ pushed tr = [MachineLowStockWarningEvent (id m)])
       ∨ (((stockLevel m ≤ LowStockThreshold
            ∧ stockLevel m + amount ≤ LowStockThreshold)
           ∨ (LowStockThreshold < stockLevel m
              ∧ LowStockThreshold < stockLevel m + amount))
          ∧ tr = [])).
Proof.
  intros Hi Hm Ha. unfold _addStock. rewrite bool_decide_false by done.
  rewrite Hm.
  set (w1 := with_machines _ w).
  assert (idle w1) as Hi1 by exact Hi.
  pose proof (number_add_side (stockLevel m) amount) as Hside.
  destruct (Z.leb_spec (stockLevel m) LowStockThreshold) as [Hold|Hold];
    destruct (Z.ltb_spec LowStockThreshold
                (number_add (stockLevel m) amount)) as [Hnew|Hnew]; simpl.
  - destruct (publish_derived_effect n (MachineStockLevelOkEvent (id m)) w1
                eq_refl Hi1) as (w' & tr & Hp & He & Hd & Hpu & HM).
    exists w', tr. split_and!; try done.
    + by eapply Effect_from; [..|exact He].
    + left. split_and!; [done|lia|done].
  - destruct (Z.ltb_spec LowStockThreshold (stockLevel m)); [lia|]. simpl.
    exists w1, []. split_and!; try done.
    + eapply Effect_from; [..|by apply Effect_refl]; done.
    + right. right. split; [|done]. left. lia.
  - destruct (Z.ltb_spec LowStockThreshold (stockLevel m)); [|lia]. simpl.
    destruct (Z.leb_spec (number_add (stockLevel m) amount) LowStockThreshold);
      [lia|].
    exists w1, []. split_and!; try done.
    + eapply Effect_from; [..|by apply Effect_refl]; done.
    + right. right. split; [|done]. right. lia.
  - destruct (Z.ltb_spec LowStockThreshold (stockLevel m)); [|lia]. simpl.
    destruct (Z.leb_spec (number_add (stockLevel m) amount) LowStockThreshold);
      [|lia].
    destruct (publish_derived_effect n (MachineLowStockWarningEvent (id m))
                w1 eq_refl Hi1) as (w' & tr & Hp & He & Hd & Hpu & HM).
    exists w', tr. split_and!; try done.
    + by eapply Effect_from; [..|exact He].
    + right. left. split_and!; [done|lia|done].
Qed.


(** *** The handlers and [publish] *)

Local Arguments publish : simpl never.

Lemma invocations_derived_only k e tr :
  derived e = false →
  Forall (λ o, derived (event_of o) = true) tr →
  invocations k e tr = O.
Proof.
  intros He Htr. unfold invocations.
  induction Htr as [|o tr Ho _ IH]; [done|].
  rewrite filter_cons_False; [done|]. intros ->. simpl in Ho. congruence.
Qed.

Lemma _handle_each_eq publish e asOf h w :
  _handle_each publish e asOf h w =
  if eligible w (type e) asOf h
  then handle_of_class publish h e (observe (Called h e) w) else Some w.
Proof.
  unfold _handle_each, handle, eligible, enrollment.
  destruct (_subscriptionTimestamps w !! _); [|done]. by case_bool_decide.
Qed.

Lemma eligible_ext w w0 t asOf h :
  _subscriptionTimestamps w = _subscriptionTimestamps w0 →
  eligible w t asOf h = eligible w0 t asOf h.
Proof. intros H. unfold eligible, enrollment. by rewrite H. Qed.

Lemma handle_effect n h e w :
  idle w →
  ∃ w' tr, handle_of_class (publish clock (S n)) h e w = Some w'
    ∧ Effect w w' tr
    ∧ ∀ k, invocations k e tr = O.
Proof.
  intros Hi.
  assert (∃ w' tr, Some w = Some w' ∧ Effect w w' tr
                   ∧ ∀ k, invocations k e tr = O) as Hnone.
  { exists w, []. split_and!; [done|by apply Effect_refl|done]. }
  assert (∀ this amount, derived e = false →
            ∃ w' tr, _addStock (publish clock (S n)) this amount w = Some w'
              ∧ Effect w w' tr ∧ ∀ k, invocations k e tr = O) as Hadd.
  { intros this amount He.
    destruct (decide (amount = 0)) as [->|Ha]; [done|].
    destruct (machine_store w !! this) as [m|] eqn:Hm;
      [|by rewrite _addStock_no_machine].
    destruct (_addStock_spec n this amount m w Hi Hm Ha)
      as (w' & tr & Hp & He' & Hd & _).
    exists w', tr. split_and!; [done..|].
    intros k. by apply invocations_derived_only. }
  unfold handle_of_class.
  destruct (class_of h), e; try done;
    destruct (getEventMachine _ _ _); try done;
    unfold consumeStock, refillStock; by apply Hadd.
Qed.

Lemma forEach_effect n e asOf w0 l : ∀ w,
  idle w →
  _subscriptions w = _subscriptions w0 →
  _subscriptionTimestamps w = _subscriptionTimestamps w0 →
  (∀ h, h ∈ l → h ∈ subscribers w0 (type e)) →
  ∃ w' tr,
    Set_forEach (_handle_each (publish clock (S n)) e asOf) l w = Some w'
    ∧ Effect w w' tr
    ∧ ∀ k, invocations k e tr =
           length (filter (λ h, h = k)
                     (filter (λ h, eligible w0 (type e) asOf h) l)).
Proof.
  induction l as [|h l IH]; intros w Hi HS HT Hl; simpl.
  - exists w, []. split_and!; [done|by apply Effect_refl|done].
  - rewrite _handle_each_eq, (eligible_ext w w0) by done.
    destruct (eligible w0 (type e) asOf h) eqn:El.
    + rewrite filter_cons_True by (by apply Is_true_true).
      set (w1 := observe (Called h e) w).
      assert (Effect w w1 [Called h e]) as E1.
      { split; try done. repeat constructor.
        - unfold subscribers. rewrite HS. apply Hl. by left.
        - unfold eligible in El. unfold enrollment in *. rewrite HT.
          by destruct (_subscriptionTimestamps w0 !! _). }
      destruct (handle_effect n h e w1 Hi) as (w2 & tr2 & -> & E2 & Hc2).
      simpl.
      destruct (IH w2) as (w' & tr3 & -> & E3 & Hc3).
      * apply E2.
      * rewrite (eff_subscriptions _ _ _ E2). exact HS.
      * rewrite (eff_timestamps _ _ _ E2). exact HT.
      * intros k Hk. apply Hl. by right.
      * exists w', ([Called h e] ++ tr2 ++ tr3).
        split_and!; [done|..].
        -- eapply Effect_trans; [exact E1|]. by eapply Effect_trans.
        -- intros k. rewrite !invocations_app, Hc2, Hc3. simpl.
           unfold invocations. rewrite (filter_cons (λ h0, h0 = k)).
           rewrite (filter_cons (λ o, o = Called k e)).
           destruct (decide (h = k)) as [->|Hne].
           ++ rewrite decide_True by done. done.
           ++ rewrite decide_False by congruence. done.
    + rewrite filter_cons_False by (by apply Is_true_false).
      simpl. apply IH; try done. intros k Hk. apply Hl. by right.
Qed.

Lemma publish_effect n e w :
  idle w →
  ∃ w' tr, publish clock (S (S n)) e w = Some w'
    ∧ Effect w w' (Pushing e :: Handling e (clock (readings w)) :: tr)
    ∧ ∀ k, invocations k e tr =
           length (filter (λ h, h = k)
                     (filter (λ h, eligible w (type e) (clock (readings w)) h)
                        (subscribers w (type e)))).
Proof.
  intros [Hh Ht]. change (publish clock (S (S n)) e w) with
    (_processEvents clock (publish clock (S n))
       (with_queue (Queue.enqueue e (_eventQueue (observe (Pushing e) w)))
          (observe (Pushing e) w))).
  unfold _processEvents. simpl.
  destruct (dequeue_enqueue_idle e _ Hh Ht) as (q' & -> & Hh' & Ht').
  unfold _handle. simpl. unfold subscribers.
  set (w2 := observe _ _).
  assert (idle w2) as Hi2 by done.
  destruct (_subscriptions w !! type e) as [l|] eqn:E; simpl.
  - destruct (forEach_effect n e (clock (readings w)) w l w2)
      as (w' & tr & -> & [S1 T1 I1 R1 F1 C1 E1] & Hc); try done.
    { intros h Hin. unfold subscribers. by rewrite E. }
    simpl. exists (with_parked (S (parked w')) w'), tr.
    split_and!; [done| |done].
    split; simpl; try done.
    + rewrite R1. simpl. by rewrite <- !app_assoc.
    + unfold delivered, pushed in *. simpl. by f_equal.
    + rewrite C1. unfold delivered. simpl. lia.
    + repeat constructor. done.
  - exists (with_parked (S (parked w2)) w2), [].
    split_and!; [done| |done].
    split; simpl; try done.
    + by rewrite <- !app_assoc.
    + lia.
    + repeat constructor.
Qed.


(** *** The machines *)

Lemma _addStock_stock n this amount m w :
  idle w → machine_store w !! this = Some m →
  ∃ w' tr, _addStock (publish clock (S n)) this amount w = Some w'
    ∧ Effect w w' tr
    ∧ machine_store w' !! this = Some (adjust amount m).
Proof.
  intros Hi Hm. destruct (decide (amount = 0)) as [->|Ha].
  - exists w, []. split_and!; [done|by apply Effect_refl|].
    rewrite Hm. by destruct m.
  - destruct (_addStock_spec n this amount m w Hi Hm Ha)
      as (w' & tr & Hp & He & _ & HM & _).
    exists w', tr. split_and!; [done..|].
    rewrite HM. unfold adjust. rewrite stock_after_nonzero by done.
    apply list_lookup_insert_eq. by eapply lookup_lt_Some.
Qed.

(** C8.  An adjustment by zero is a no-op: [consumeStock(0)] and
    [refillStock(0)] return with the world as it was, so the stock level
    of every machine is unchanged and nothing was published, delivered or
    handled, whatever the service behind [publish] is. *)
Theorem zero_adjustment_is_noop publish this w :
  consumeStock publish this 0 w = Some w
  ∧ refillStock publish this 0 w = Some w.
Proof. split; reflexivity. Qed.

(** C7.  [consumeStock(amount)] returns (it raises nothing) for every
    amount, the non-negative ones among them; and whenever the former stock
    level minus [amount] is a safe integer, it leaves the machine with
    exactly that stock level, also when it is negative: nothing is clamped
    or rejected. *)
Theorem consumeStock_subtracts n this m amount w :
  idle w → machine_store w !! this = Some m →
  ∃ w', consumeStock (publish clock (S n)) this amount w = Some w'
    ∧ (safe_integer (stockLevel m - amount) →
       stock w' this = Some (stockLevel m - amount)).
Proof.
  intros Hi Hm. unfold consumeStock.
  destruct (_addStock_stock n this (- amount) m w Hi Hm)
    as (w' & tr & Hp & _ & HM).
  exists w'. split; [done|]. unfold stock. rewrite HM. simpl.
  intros Hsafe. f_equal. by apply stock_after_safe.
Qed.

(** C10.  [consumeStock(a)] followed by [refillStock(a)], and
    [refillStock(a)] followed by [consumeStock(a)], both return, whatever
    events the two calls publish; and they leave the machine's stock level
    as it was before the two calls when the stock level is a double and the
    level in between (the stock level minus [a], respectively plus [a]) is
    a safe integer. *)
Theorem consume_refill_restores n this m a w :
  idle w → machine_store w !! this = Some m →
  nearest_double (stockLevel m) = stockLevel m →
  (∃ w1 w2, consumeStock (publish clock (S n)) this a w = Some w1
     ∧ refillStock (publish clock (S n)) this a w1 = Some w2
     ∧ (safe_integer (stockLevel m - a) →
        stock w2 this = Some (stockLevel m)))
  ∧ (∃ w1 w2, refillStock (publish clock (S n)) this a w = Some w1
     ∧ consumeStock (publish clock (S n)) this a w1 = Some w2
     ∧ (safe_integer (stockLevel m + a) →
        stock w2 this = Some (stockLevel m))).
Proof.
  intros Hi Hm Hdouble. unfold consumeStock, refillStock.
  assert (∀ d, safe_integer (stockLevel m + d) →
            stock_after (stock_after (stockLevel m) d) (- d) = stockLevel m)
    as Hback.
  { intros d Hsafe. rewrite (stock_after_safe _ d) by done.
    unfold stock_after. case_bool_decide as Hd.
    - lia.
    - unfold number_add.
      replace (stockLevel m + d + - - d) with (stockLevel m + d + d) by lia.
      replace (stockLevel m + d + - d) with (stockLevel m) by lia. done. }
  split.
  - destruct (_addStock_stock n this (- a) m w Hi Hm)
      as (w1 & tr1 & Hp1 & He1 & HM1).
    destruct (_addStock_stock n this a _ w1 (eff_idle _ _ _ He1) HM1)
      as (w2 & tr2 & Hp2 & _ & HM2).
    exists w1, w2. split_and!; [done..|]. intros Hsafe.
    unfold stock. rewrite HM2. simpl. f_equal.
    specialize (Hback (- a)). rewrite Z.opp_involutive in Hback.
    apply Hback. by replace (stockLevel m + - a) with (stockLevel m - a) by lia.
  - destruct (_addStock_stock n this a m w Hi Hm)
      as (w1 & tr1 & Hp1 & He1 & HM1).
    destruct (_addStock_stock n this (- a) _ w1 (eff_idle _ _ _ He1) HM1)
      as (w2 & tr2 & Hp2 & _ & HM2).
    exists w1, w2. split_and!; [done..|]. intros Hsafe.
    unfold stock. rewrite HM2. simpl. f_equal. by apply Hback.
Qed.

Lemma adjustments_same_side n this amounts : ∀ m w,
  idle w → machine_store w !! this = Some m →
  Forall (λ level, level ≤ LowStockThreshold)
    (stockLevel m :: stock_levels (stockLevel m) amounts)
  ∨ Forall (λ level, LowStockThreshold < level)
      (stockLevel m :: stock_levels (stockLevel m) amounts) →
  ∃ w', adjustments (publish clock (S n)) this amounts w = Some w'
    ∧ pushed (trace w') = pushed (trace w).
Proof.
  induction amounts as [|amount amounts IH]; intros m w Hi Hm Hside; simpl.
  - eauto.
  - assert (∃ w1, _addStock (publish clock (S n)) this amount w = Some w1
              ∧ idle w1
              ∧ machine_store w1 !! this = Some (adjust amount m)
              ∧ pushed (trace w1) = pushed (trace w)) as (w1 & -> & Hi1 & Hm1 & Hp1).
    { destruct (decide (amount = 0)) as [->|Ha].
      - exists w. split_and!; try done. rewrite Hm. by destruct m.
      - destruct (_addStock_spec n this amount m w Hi Hm Ha)
          as (w1 & tr & Hp & He & _ & HM & Hcases).
        exists w1. split_and!; [done|apply He| |].
        + rewrite HM. unfold adjust. rewrite stock_after_nonzero by done.
          apply list_lookup_insert_eq. by eapply lookup_lt_Some.
        + rewrite (eff_trace _ _ _ He), pushed_app.
          simpl in Hside. rewrite !Forall_cons in Hside.
          pose proof (stock_after_side (stockLevel m) amount) as Hs.
          destruct Hcases as [(?&?&?)|[(?&?&?)|[_ ->]]];
            [lia|lia|by rewrite app_nil_r]. }
    simpl. destruct (IH _ w1 Hi1 Hm1) as (w' & -> & Hp').
    + simpl in *. rewrite !Forall_cons in Hside. rewrite !Forall_cons.
      tauto.
    + exists w'. split; [done|]. congruence.
Qed.

(** C1.  One adjustment of a machine by a nonzero [amount] publishes
    exactly one StockLevelOk event when the stock level goes from at or
    below the threshold to above it, exactly one LowStockWarning event
    when it goes from above the threshold to at or below it, and no event
    otherwise.  Any number of adjustments in a row that all stay on the
    side of the threshold where the machine started publish nothing. *)
Theorem threshold_crossing_fires_once n this m w :
  idle w → machine_store w !! this = Some m →
  (∀ amount, amount ≠ 0 →
     let oldStockLevel := stockLevel m in
     let newStockLevel := stockLevel m + amount in
     ∃ w' tr, _addStock (publish clock (S n)) this amount w = Some w'
       ∧ trace w' = trace w ++ tr
       ∧ (oldStockLevel ≤ LowStockThreshold
          ∧ newStockLevel > LowStockThreshold →
          pushed tr = [MachineStockLevelOkEvent (id m)])
       ∧ (oldStockLevel > LowStockThreshold
          ∧ newStockLevel ≤ LowStockThreshold →
          pushed tr = [MachineLowStockWarningEvent (id m)])
       ∧ (¬ (oldStockLevel ≤ LowStockThreshold
             ∧ newStockLevel > LowStockThreshold)
          ∧ ¬ (oldStockLevel > LowStockThreshold
               ∧ newStockLevel ≤ LowStockThreshold) →
          pushed tr = []))
  ∧ (∀ amounts,
       Forall (λ level, level ≤ LowStockThreshold)
         (stockLevel m :: stock_levels (stockLevel m) amounts)
       ∨ Forall (λ level, LowStockThreshold < level)
           (stockLevel m :: stock_levels (stockLevel m) amounts) →
       ∃ w', adjustments (publish clock (S n)) this amounts w = Some w'
         ∧ pushed (trace w') = pushed (trace w)).
Proof.
  intros Hi Hm. split.
  - intros amount Ha. simpl.
    destruct (_addStock_spec n this amount m w Hi Hm Ha)
      as (w' & tr & Hp & He & _ & _ & Hcases).
    exists w', tr. split_and!; [done|apply He|..].
    + intros [? ?].
      destruct Hcases as [(?&?&?)|[(?&?&?)|[? ->]]]; [done|lia|lia].
    + intros [? ?].
      destruct Hcases as [(?&?&?)|[(?&?&?)|[? ->]]]; [lia|done|lia].
    + intros [? ?].
      destruct Hcases as [(?&?&?)|[(?&?&?)|[? ->]]]; [lia|lia|done].
  - intros amounts. by apply adjustments_same_side.
Qed.


(** *** [subscribe] and [unsubscribe] *)

Lemma Set_add_elem h l : h ∈ Set_add h l.
Proof. unfold Set_add. case_decide; [done|]. apply elem_of_app. right. by left. Qed.

Lemma Set_add_again h l : Set_add h (Set_add h l) = Set_add h l.
Proof.
  unfold Set_add at 1. rewrite decide_True; [done|]. apply Set_add_elem.
Qed.

Lemma Set_add_NoDup h l : NoDup l → NoDup (Set_add h l).
Proof.
  intros Hl. unfold Set_add. case_decide; [done|].
  apply NoDup_app. split_and!; [done| |apply NoDup_singleton].
  intros x Hx Hx'. apply list_elem_of_singleton in Hx'. by subst.
Qed.

Lemma subscribe_again t o w :
  subscribe clock t o (subscribe clock t o w) = subscribe clock t o w.
Proof.
  destruct w as [subs tss q ms r p tr]. unfold subscribe. simpl.
  destruct (subs !! t) as [l|] eqn:E; simpl;
    destruct (tss !! _getSubscriptionKey t o) as [ts|] eqn:Ets; simpl;
    rewrite ?lookup_insert_eq; simpl; rewrite ?Ets, ?lookup_insert_eq; simpl;
    unfold with_subscriptions; simpl;
    rewrite ?insert_insert_eq, ?Set_add_again; try done.
  - unfold Set_add. rewrite decide_True by (by left). done.
  - unfold Set_add. rewrite decide_True by (by left). done.
Qed.


Lemma subscribe_frame t o w :
  _eventQueue (subscribe clock t o w) = _eventQueue w
  ∧ trace (subscribe clock t o w) = trace w
  ∧ machine_store (subscribe clock t o w) = machine_store w
  ∧ parked (subscribe clock t o w) = parked w.
Proof.
  unfold subscribe.
  destruct (_subscriptions w !! t); simpl;
    destruct (_subscriptionTimestamps w !! _); done.
Qed.

Lemma subscribe_subscribers t o w t' :
  subscribers (subscribe clock t o w) t' =
  if decide (t' = t) then Set_add o (subscribers w t) else subscribers w t'.
Proof.
  unfold subscribe, subscribers.
  destruct (_subscriptions w !! t) eqn:E; simpl;
    destruct (_subscriptionTimestamps w !! _); simpl;
    (case_decide as Ht; [subst t'; by rewrite lookup_insert_eq
                        |by rewrite lookup_insert_ne]).
Qed.

Lemma subscribe_timestamps t o w k :
  _subscriptionTimestamps (subscribe clock t o w) !! k =
  if decide (k = _getSubscriptionKey t o)
  then Some (default (clock (readings w)) (enrollment w t o))
  else _subscriptionTimestamps w !! k.
Proof.
  unfold subscribe, enrollment.
  destruct (_subscriptions w !! t); simpl;
    destruct (_subscriptionTimestamps w !! _getSubscriptionKey t o) eqn:E;
    simpl; (case_decide as Hk; [subst k|]);
    rewrite ?lookup_insert_eq, ?lookup_insert_ne by done; done.
Qed.

Lemma subscribe_readings t o w :
  (readings w ≤ readings (subscribe clock t o w))%nat.
Proof.
  unfold subscribe.
  destruct (_subscriptions w !! t); simpl;
    destruct (_subscriptionTimestamps w !! _); simpl; lia.
Qed.

Lemma unsubscribe_frame t o w :
  _eventQueue (unsubscribe t o w) = _eventQueue w
  ∧ trace (unsubscribe t o w) = trace w
  ∧ machine_store (unsubscribe t o w) = machine_store w
  ∧ parked (unsubscribe t o w) = parked w
  ∧ readings (unsubscribe t o w) = readings w.
Proof. unfold unsubscribe. by destruct (_subscriptions w !! t). Qed.

Lemma unsubscribe_subscribers t o w t' :
  subscribers (unsubscribe t o w) t' =
  if decide (t' = t) then Set_delete o (subscribers w t)
  else subscribers w t'.
Proof.
  unfold unsubscribe, subscribers.
  destruct (_subscriptions w !! t) eqn:E; simpl.
  - case_decide as Ht; [subst t'; by rewrite lookup_insert_eq
                       |by rewrite lookup_insert_ne].
  - case_decide as Ht; [subst t'; by rewrite E|done].
Qed.

Lemma unsubscribe_timestamps t o w k :
  _subscriptionTimestamps (unsubscribe t o w) !! k =
  match _subscriptions w !! t with
  | Some _ =>
      if decide (k = _getSubscriptionKey t o) then None
      else _subscriptionTimestamps w !! k
  | None => _subscriptionTimestamps w !! k
  end.
Proof.
  unfold unsubscribe. destruct (_subscriptions w !! t); simpl; [|done].
  case_decide as Hk; [subst k; apply lookup_delete_eq
                     |by apply lookup_delete_ne].
Qed.

(** *** The states the program reaches *)

Lemma subscribe_idle t o w : idle w → idle (subscribe clock t o w).
Proof.
  unfold idle. by destruct (subscribe_frame t o w) as (-> & _).
Qed.

Lemma unsubscribe_idle t o w : idle w → idle (unsubscribe t o w).
Proof.
  unfold idle. by destruct (unsubscribe_frame t o w) as (-> & _).
Qed.

Lemma subscribe_sets_ok t o w : sets_ok w → sets_ok (subscribe clock t o w).
Proof.
  intros H t'. rewrite subscribe_subscribers.
  case_decide; [by apply Set_add_NoDup|done].
Qed.

Lemma unsubscribe_sets_ok t o w :
  sets_ok w → sets_ok (unsubscribe t o w).
Proof.
  intros H t'. rewrite unsubscribe_subscribers.
  case_decide; [by apply NoDup_filter|done].
Qed.

Lemma subscribe_timestamps_past t o w :
  monotone clock → timestamps_past clock w →
  timestamps_past clock (subscribe clock t o w).
Proof.
  intros Hmono Hw k ts. rewrite subscribe_timestamps.
  pose proof (subscribe_readings t o w) as Hr.
  case_decide.
  - intros [= <-]. unfold enrollment.
    destruct (_subscriptionTimestamps w !! _) as [ts0|] eqn:E; simpl.
    + etrans; [by eapply Hw|]. by apply Hmono.
    + by apply Hmono.
  - intros Hk. etrans; [by eapply Hw|]. by apply Hmono.
Qed.

Lemma unsubscribe_timestamps_past t o w :
  timestamps_past clock w → timestamps_past clock (unsubscribe t o w).
Proof.
  intros Hw k ts. rewrite unsubscribe_timestamps.
  destruct (unsubscribe_frame t o w) as (_ & _ & _ & _ & ->).
  destruct (_subscriptions w !! t); [case_decide; [done|]|]; apply Hw.
Qed.

Lemma Effect_sets_ok w w' tr : Effect w w' tr → sets_ok w → sets_ok w'.
Proof.
  intros He H t. unfold subscribers.
  rewrite (eff_subscriptions _ _ _ He). apply H.
Qed.

Lemma Effect_timestamps_past w w' tr :
  monotone clock → Effect w w' tr →
  timestamps_past clock w → timestamps_past clock w'.
Proof.
  intros Hmono He H k ts. rewrite (eff_timestamps _ _ _ He).
  intros Hk. etrans; [by eapply H|]. apply Hmono.
  rewrite (eff_readings _ _ _ He). lia.
Qed.


(** *** Counting the calls of a handler *)

Lemma filter_one (P : Subscriber → Prop) `{∀ x, Decision (P x)} o l :
  NoDup l →
  length (filter (λ h, h = o) (filter P l))
  = if decide (o ∈ l ∧ P o) then 1%nat else 0%nat.
Proof.
  induction 1 as [|h l Hh Hl IH].
  - rewrite decide_False; [done|]. intros [Hin _]. by apply elem_of_nil in Hin.
  - rewrite filter_cons. destruct (decide (P h)) as [HP|HP].
    + rewrite filter_cons. destruct (decide (h = o)) as [->|Hne].
      * simpl. rewrite IH, decide_False by tauto.
        rewrite decide_True; [done|]. split; [by left|done].
      * rewrite IH. apply decide_ext. rewrite elem_of_cons. intuition congruence.
    + rewrite IH. apply decide_ext. rewrite elem_of_cons. intuition congruence.
Qed.

(** Resuming the parked activations on an empty queue: each of them
    finds nothing and ends. *)
Lemma run_microtasks_idle fuel steps : ∀ w,
  idle w → (parked w ≤ steps)%nat →
  run_microtasks clock steps fuel w = Some (with_parked O w).
Proof.
  induction steps as [|steps IH]; intros w Hi Hp.
  - destruct w as [? ? ? ? ? p ?]. simpl in *.
    assert (p = O) as -> by lia. done.
  - destruct w as [subs tss q ms r p tr]. simpl in *.
    destruct p as [|p]; [done|].
    unfold resume, _processEvents. simpl. unfold Queue.dequeue.
    destruct Hi as [Hh Ht]. simpl in *. rewrite Hh. simpl.
    rewrite IH; [done|done|simpl; lia].
Qed.

(** *** Every state the program reaches is idle and well formed

    A script started on a fresh service returns, and leaves the queue
    empty, the subscriber sets without repetition and the timestamps in the
    past; resuming the parked activations then changes nothing but their
    number.  These are the assumptions of the theorems below. *)

Lemma new_world_ok ms :
  idle (new_world ms) ∧ sets_ok (new_world ms)
  ∧ timestamps_past clock (new_world ms).
Proof.
  split_and!.
  - done.
  - intros t. unfold subscribers. simpl. rewrite lookup_empty. constructor.
  - intros k ts H. simpl in H. by rewrite lookup_empty in H.
Qed.

Lemma call_ok n c w :
  monotone clock → idle w → sets_ok w → timestamps_past clock w →
  ∃ w', call clock (S (S n)) c w = Some w'
    ∧ idle w' ∧ sets_ok w' ∧ timestamps_past clock w'.
Proof.
  intros Hmono Hi Hs Hp. destruct c as [e|t o|t o]; simpl.
  - destruct (publish_effect n e w Hi) as (w' & tr & -> & He & _).
    exists w'. split_and!; [done|apply He|..].
    + by eapply Effect_sets_ok.
    + by eapply Effect_timestamps_past.
  - eexists. split_and!; [done|..].
    + by apply subscribe_idle.
    + by apply subscribe_sets_ok.
    + by apply subscribe_timestamps_past.
  - eexists. split_and!; [done|..].
    + by apply unsubscribe_idle.
    + by apply unsubscribe_sets_ok.
    + by apply unsubscribe_timestamps_past.
Qed.

Lemma script_ok n cs : ∀ w,
  monotone clock → idle w → sets_ok w → timestamps_past clock w →
  ∃ w', script clock (S (S n)) cs w = Some w'
    ∧ idle w' ∧ sets_ok w' ∧ timestamps_past clock w'.
Proof.
  induction cs as [|c cs IH]; intros w Hmono Hi Hs Hp.
  - by exists w.
  - change (script clock (S (S n)) (c :: cs) w)
      with (call clock (S (S n)) c w ≫= script clock (S (S n)) cs).
    destruct (call_ok n c w Hmono Hi Hs Hp) as (w1 & -> & Hi1 & Hs1 & Hp1).
    by apply IH.
Qed.

Lemma reachable_ok n cs ms :
  monotone clock →
  ∃ w', script clock (S (S n)) cs (new_world ms) = Some w'
    ∧ idle w' ∧ sets_ok w' ∧ timestamps_past clock w'
    ∧ run_microtasks clock (parked w') (S (S n)) w' = Some (with_parked O w').
Proof.
  intros Hmono. destruct (new_world_ok ms) as (Hi & Hs & Hp).
  destruct (script_ok n cs (new_world ms) Hmono Hi Hs Hp)
    as (w' & Hr & Hi' & Hs' & Hp').
  exists w'. split_and!; try done. by apply run_microtasks_idle.
Qed.

(** *** Scripts *)

Lemma call_fifo n c w :
  idle w →
  ∃ w' tr, call clock (S (S n)) c w = Some w'
    ∧ idle w'
    ∧ trace w' = trace w ++ tr
    ∧ delivered tr = pushed tr
    ∧ published_by [c] `sublist_of` pushed tr.
Proof.
  intros Hi. destruct c as [e|t o|t o]; simpl.
  - destruct (publish_effect n e w Hi) as (w' & tr & -> & He & _).
    eexists _, _. split_and!; [done|apply He..|].
    unfold pushed. simpl. apply sublist_skip, sublist_nil_l.
  - exists (subscribe clock t o w), []. split_and!; try done.
    + by apply subscribe_idle.
    + destruct (subscribe_frame t o w) as (_ & -> & _).
      by rewrite app_nil_r.
  - exists (unsubscribe t o w), []. split_and!; try done.
    + by apply unsubscribe_idle.
    + destruct (unsubscribe_frame t o w) as (_ & -> & _).
      by rewrite app_nil_r.
Qed.

Lemma script_fifo n cs : ∀ w,
  idle w →
  ∃ w' tr, script clock (S (S n)) cs w = Some w'
    ∧ idle w'
    ∧ trace w' = trace w ++ tr
    ∧ delivered tr = pushed tr
    ∧ published_by cs `sublist_of` pushed tr.
Proof.
  induction cs as [|c cs IH]; intros w Hi.
  - exists w, []. split_and!; try done. by rewrite app_nil_r.
  - change (script clock (S (S n)) (c :: cs) w)
      with (call clock (S (S n)) c w ≫= script clock (S (S n)) cs).
    destruct (call_fifo n c w Hi) as (w1 & tr1 & -> & Hi1 & Ht1 & Hf1 & Hs1).
    destruct (IH w1 Hi1) as (w' & tr2 & Hp & Hi' & Ht2 & Hf2 & Hs2).
    exists w', (tr1 ++ tr2). split_and!; try done.
    + rewrite Ht2, Ht1, app_assoc. done.
    + rewrite delivered_app, pushed_app. congruence.
    + rewrite pushed_app.
      change (c :: cs) with ([c] ++ cs).
      unfold published_by in *. rewrite omap_app.
      by apply sublist_app.
Qed.

(** X20.  Deliveries begin in the order of the pushes.  Whatever calls a
    script makes, when it has made them the events passed to [_handle] are
    the events passed to [publish] (by the script or by a handler), in the
    same order; the events the script itself published are among them in
    the order of the script, and the queue is empty: what the handlers
    enqueued was passed to [_handle] before the [publish] call around them
    returned.  In the concrete program, publishing [event1], [event2],
    [event3], where the handler of [event1] takes the machine to the
    threshold and so publishes a LowStockWarning, passes [event1], the
    warning, [event2], [event3] to [_handle], in this order. *)
Theorem deliveries_begin_in_publish_order n cs w :
  idle w →
  (∃ w' tr, script clock (S (S n)) cs w = Some w'
     ∧ trace w' = trace w ++ tr
     ∧ delivered tr = pushed tr
     ∧ published_by cs `sublist_of` pushed tr
     ∧ idle w')
  ∧ (∃ w', script tick_clock 2 [Publish event1; Publish event2; Publish event3]
             test_world = Some w'
       ∧ delivered (trace w')
         = [event1; MachineLowStockWarningEvent "001"; event2; event3]
       ∧ idle w').
Proof.
  intros Hi. split.
  - destruct (script_fifo n cs w Hi) as (w' & tr & ? & ? & ? & ? & ?).
    by exists w', tr.
  - eexists. split; [vm_compute; reflexivity|]. split; [reflexivity|].
    split; reflexivity.
Qed.


(** *** The subscription key *)

Lemma _getSubscriptionKey_inj t1 s1 t2 s2 :
  _getSubscriptionKey t1 s1 = _getSubscriptionKey t2 s2
  ↔ t1 = t2 ∧ toString s1 = toString s2.
Proof.
  unfold _getSubscriptionKey, toString. split.
  - destruct t1, t2, (class_of s1), (class_of s2); simpl; intros H;
      first [discriminate H | split; reflexivity].
  - by intros [-> ->].
Qed.

Lemma script_publish_effect n es : ∀ w,
  idle w →
  ∃ w' tr, script clock (S (S n)) (map Publish es) w = Some w'
    ∧ Effect w w' tr.
Proof.
  induction es as [|e es IH]; intros w Hi.
  - exists w, []. split; [done|]. by apply Effect_refl.
  - change (script clock (S (S n)) (map Publish (e :: es)) w)
      with (publish clock (S (S n)) e w
            ≫= script clock (S (S n)) (map Publish es)).
    destruct (publish_effect n e w Hi) as (w1 & tr1 & -> & He1 & _).
    destruct (IH w1 (eff_idle _ _ _ He1)) as (w' & tr2 & Hp & He2).
    eexists w', _. split; [done|]. by eapply Effect_trans.
Qed.

Lemma invocations_not_enrolled w tr a e :
  Forall (enrolled w) tr → enrollment w (type e) a = None →
  invocations a e tr = O.
Proof.
  intros Htr Hnone. unfold invocations.
  induction Htr as [|o tr Ho _ IH]; [done|].
  rewrite filter_cons_False; [done|]. intros ->. simpl in Ho.
  destruct Ho as [_ [ts Hts]]. congruence.
Qed.

(** What does hold of [unsubscribe]: it always returns, a second call
    changes nothing more, the observer is no longer in the subscriber set,
    and it is called with no event of the type published from then on. *)
Lemma unsubscribe_again t o w :
  unsubscribe t o (unsubscribe t o w) = unsubscribe t o w.
Proof.
  destruct w as [subs tss q ms r p tr]. unfold unsubscribe. simpl.
  destruct (subs !! t) as [l|] eqn:E; simpl.
  - rewrite lookup_insert_eq. unfold with_subscriptions, with_timestamps. simpl.
    rewrite insert_insert_eq. f_equal.
    + f_equal. unfold Set_delete. apply list_filter_filter_l. done.
    + apply map_eq. intros k.
      destruct (decide (k = _getSubscriptionKey t o)) as [->|Hk].
      * by rewrite !lookup_delete_eq.
      * by rewrite !lookup_delete_ne.
  - by rewrite E.
Qed.

Lemma invocations_not_member w tr o e :
  Forall (enrolled w) tr → o ∉ subscribers w (type e) →
  invocations o e tr = O.
Proof.
  intros Htr Hnot. unfold invocations.
  induction Htr as [|x tr Hx _ IH]; [done|].
  rewrite filter_cons_False; [done|]. intros ->. simpl in Hx. tauto.
Qed.

Lemma unsubscribe_unenrolls n t o w :
  idle w →
  (o ∉ subscribers (unsubscribe t o w) t)
  ∧ ∀ es, ∃ w', script clock (S (S n)) (map Publish es) (unsubscribe t o w)
                = Some w'
      ∧ ∀ e, type e = t →
          invocations o e (trace w') = invocations o e (trace w).
Proof.
  intros Hi.
  assert (o ∉ subscribers (unsubscribe t o w) t) as Hnot.
  { rewrite unsubscribe_subscribers, decide_True by done.
    intros Hin. apply list_elem_of_filter in Hin as [Hne _]. done. }
  split; [done|]. intros es.
  destruct (script_publish_effect n es (unsubscribe t o w))
    as (w' & tr & Hp & He); [by apply unsubscribe_idle|].
  exists w'. split; [done|]. intros e <-.
  rewrite (eff_trace _ _ _ He), invocations_app.
  rewrite (invocations_not_member (unsubscribe (type e) o w) tr o e);
    [|apply He|done].
  destruct (unsubscribe_frame (type e) o w) as (_ & -> & _). lia.
Qed.


(** ** Further properties of the service and the machines *)

(** *** The handlers, one call at a time *)

Lemma handle_reacts publish h e w :
  handle_of_class publish h e w =
  match reacts h e, getEventMachine h e w with
  | Some amount, Some machine => _addStock publish machine amount w
  | _, _ => Some w
  end.
Proof.
  unfold handle_of_class, reacts, consumeStock, refillStock.
  destruct (class_of h), e; try done; by destruct (getEventMachine _ _ _).
Qed.

Lemma getEventMachine_spec this event w :
  match getEventMachine this event w with
  | Some r =>
      ∃ i m, machines this !! i = Some r
        ∧ machine_store w !! r = Some m ∧ id m = machineId event
        ∧ ∀ j r', machines this !! j = Some r' → (j < i)%nat →
            id <$> machine_store w !! r' ≠ Some (machineId event)
  | None =>
      ∀ r, r ∈ machines this →
        id <$> machine_store w !! r ≠ Some (machineId event)
  end.
Proof.
  unfold getEventMachine.
  destruct (list_find _ (machines this)) as [[i r]|] eqn:E; simpl.
  - apply list_find_Some in E as (Hi & Hr & Hfirst).
    destruct (machine_store w !! r) as [m|] eqn:Hm; [|done].
    exists i, m. split_and!; [done|done|simpl in Hr; congruence|].
    intros j r' Hj Hlt. by eapply Hfirst.
  - apply list_find_None in E. intros r Hr.
    by eapply Forall_forall in E.
Qed.

(** [getEventMachine] reads the ids of the machines only. *)
Lemma getEventMachine_ids h e w w0 :
  (∀ r, id <$> machine_store w !! r = id <$> machine_store w0 !! r) →
  getEventMachine h e w = getEventMachine h e w0.
Proof.
  intros Hs. unfold getEventMachine. f_equal. apply list_find_ext.
  intros r. by rewrite Hs.
Qed.

Lemma alter_insert (f : Machine → Machine) (ms : list Machine) r m :
  ms !! r = Some m → alter f r ms = <[r := f m]> ms.
Proof.
  intros Hm. apply list_eq. intros i.
  destruct (decide (r = i)) as [<-|Hne].
  - rewrite list_lookup_alter_eq, Hm.
    by rewrite list_lookup_insert_eq by (by eapply lookup_lt_Some).
  - by rewrite list_lookup_alter_ne, list_lookup_insert_ne.
Qed.

Lemma _addStock_store n this amount m w :
  idle w → machine_store w !! this = Some m →
  ∃ w' tr, _addStock (publish clock (S n)) this amount w = Some w'
    ∧ Effect w w' tr
    ∧ Forall (λ o, derived (event_of o) = true) tr
    ∧ machine_store w' = <[this := adjust amount m]> (machine_store w).
Proof.
  intros Hi Hm. destruct (decide (amount = 0)) as [->|Ha].
  - exists w, []. split_and!; [done|by apply Effect_refl|done|].
    symmetry. apply list_insert_id. rewrite Hm. by destruct m.
  - destruct (_addStock_spec n this amount m w Hi Hm Ha)
      as (w' & tr & Hp & He & Hd & HM & _).
    exists w', tr. split_and!; [done..|].
    rewrite HM. unfold adjust. by rewrite stock_after_nonzero.
Qed.

Lemma handlers_called_app e tr1 tr2 :
  handlers_called e (tr1 ++ tr2) = handlers_called e tr1 ++ handlers_called e tr2.
Proof. apply omap_app. Qed.

Lemma handlers_called_nil e tr :
  (∀ k, invocations k e tr = O) → handlers_called e tr = [].
Proof.
  induction tr as [|o tr IH]; intros Hz; [done|].
  assert (∀ k, invocations k e tr = O) as Hz'.
  { intros k. specialize (Hz k). unfold invocations in *.
    rewrite filter_cons in Hz. case_decide; [done|exact Hz]. }
  specialize (IH Hz').
  change (o :: tr) with ([o] ++ tr). rewrite handlers_called_app, IH, app_nil_r.
  destruct o as [| |h e']; try done. unfold handlers_called. simpl.
  case_decide; [subst e'|done].
  specialize (Hz h). unfold invocations in Hz.
  rewrite filter_cons_True in Hz by done. done.
Qed.

(** One call of a handler's body: what it does to the machines is
    [handle_machines]; the events it publishes are derived ones, which no
    handler reacts to. *)
Lemma handle_full n h e w :
  idle w →
  ∃ w' tr, handle_of_class (publish clock (S n)) h e w = Some w'
    ∧ Effect w w' tr
    ∧ (∀ k, invocations k e tr = O)
    ∧ machine_store w' = handle_machines e (machine_store w) h.
Proof.
  intros Hi. rewrite handle_reacts. unfold handle_machines.
  change (getEventMachine h e (new_world (machine_store w)))
    with (getEventMachine h e w).
  destruct (reacts h e) as [amount|] eqn:Hre;
    [destruct (getEventMachine h e w) as [r'|] eqn:Hget|].
  - pose proof (getEventMachine_spec h e w) as Hspec.
    rewrite Hget in Hspec. destruct Hspec as (_ & m & _ & Hm & _).
    destruct (_addStock_store n r' amount _ w Hi Hm)
      as (w' & tr & Hp & He & Hd & HM).
    exists w', tr. split_and!; [done|done|..].
    + intros k. assert (derived e = false) as Hnd
        by (unfold reacts in Hre; by destruct (class_of h), e).
      by apply invocations_derived_only.
    + rewrite HM. symmetry. by apply alter_insert.
  - exists w, []. split_and!; [done|by apply Effect_refl|done|done].
  - exists w, []. split_and!; [done|by apply Effect_refl|done|done].
Qed.

Lemma forEach_full n e asOf w0 l : ∀ w,
  idle w →
  _subscriptions w = _subscriptions w0 →
  _subscriptionTimestamps w = _subscriptionTimestamps w0 →
  (∀ h, h ∈ l → h ∈ subscribers w0 (type e)) →
  ∃ w' tr,
    Set_forEach (_handle_each (publish clock (S n)) e asOf) l w = Some w'
    ∧ Effect w w' tr
    ∧ handlers_called e tr = filter (λ h, eligible w0 (type e) asOf h) l
    ∧ machine_store w'
      = foldl (handle_machines e) (machine_store w)
          (filter (λ h, eligible w0 (type e) asOf h) l).
Proof.
  induction l as [|h l IH]; intros w Hi HS HT Hl; simpl.
  - exists w, []. split_and!; [done|by apply Effect_refl|done|done].
  - rewrite _handle_each_eq, (eligible_ext w w0) by done.
    destruct (eligible w0 (type e) asOf h) eqn:El.
    + rewrite filter_cons_True by (by apply Is_true_true).
      set (w1 := observe (Called h e) w).
      assert (Effect w w1 [Called h e]) as E1.
      { split; try done. repeat constructor.
        - unfold subscribers. rewrite HS. apply Hl. by left.
        - unfold eligible in El. unfold enrollment in *. rewrite HT.
          by destruct (_subscriptionTimestamps w0 !! _). }
      destruct (handle_full n h e w1 Hi)
        as (w2 & tr2 & -> & E2 & Hc2 & Hm2).
      simpl.
      destruct (IH w2) as (w' & tr3 & -> & E3 & Hc3 & Hm3).
      * apply E2.
      * rewrite (eff_subscriptions _ _ _ E2). exact HS.
      * rewrite (eff_timestamps _ _ _ E2). exact HT.
      * intros k Hk. apply Hl. by right.
      * exists w', ([Called h e] ++ tr2 ++ tr3).
        split_and!; [done|..].
        -- eapply Effect_trans; [exact E1|]. by eapply Effect_trans.
        -- rewrite !handlers_called_app, Hc3, (handlers_called_nil e tr2 Hc2).
           unfold handlers_called. simpl. by rewrite decide_True.
        -- rewrite Hm3, Hm2. done.
    + rewrite filter_cons_False by (by apply Is_true_false).
      simpl. apply IH; try done. intros k Hk. apply Hl. by right.
Qed.

(** The iteration of [_handle] is the run of [handle] over the eligible
    members, in order: the members it skips leave no mark at all. *)
Lemma forEach_runs_the_eligible n e asOf w0 l : ∀ w,
  idle w →
  _subscriptions w = _subscriptions w0 →
  _subscriptionTimestamps w = _subscriptionTimestamps w0 →
  Set_forEach (_handle_each (publish clock (S n)) e asOf) l w
  = Set_forEach (λ h, handle (publish clock (S n)) h e)
      (filter (λ h, eligible w0 (type e) asOf h) l) w.
Proof.
  induction l as [|h l IH]; intros w Hi HS HT; [done|].
  simpl. rewrite _handle_each_eq, (eligible_ext w w0) by done.
  destruct (eligible w0 (type e) asOf h) eqn:El.
  - rewrite filter_cons_True by (by apply Is_true_true). simpl.
    unfold handle at 2.
    destruct (handle_full n h e (observe (Called h e) w) Hi)
      as (w2 & tr2 & -> & E2 & _). simpl.
    apply IH; [apply E2|..].
    + rewrite (eff_subscriptions _ _ _ E2). exact HS.
    + rewrite (eff_timestamps _ _ _ E2). exact HT.
  - rewrite filter_cons_False by (by apply Is_true_false). simpl. by apply IH.
Qed.

Lemma publish_full n e w :
  idle w →
  ∃ w' tr, publish clock (S (S n)) e w = Some w'
    ∧ Effect w w' (Pushing e :: Handling e (clock (readings w)) :: tr)
    ∧ handlers_called e tr = recipients clock e w
    ∧ machine_store w'
      = foldl (handle_machines e) (machine_store w) (recipients clock e w)
    ∧ delivers clock (S n) e (recipients clock e w) w w'.
Proof.
  intros [Hh Ht]. change (publish clock (S (S n)) e w) with
    (_processEvents clock (publish clock (S n))
       (with_queue (Queue.enqueue e (_eventQueue (observe (Pushing e) w)))
          (observe (Pushing e) w))).
  unfold _processEvents, delivers. simpl.
  destruct (dequeue_enqueue_idle e _ Hh Ht) as (q' & -> & Hh' & Ht').
  unfold _handle. simpl. unfold recipients, subscribers.
  set (w2 := observe _ _).
  assert (idle w2) as Hi2 by done.
  destruct (_subscriptions w !! type e) as [l|] eqn:E; simpl.
  - pose proof (forEach_runs_the_eligible n e (clock (readings w)) w l w2
                  Hi2 eq_refl eq_refl) as Hruns.
    destruct (forEach_full n e (clock (readings w)) w l w2)
      as (w' & tr & Hp & [S1 T1 I1 R1 F1 C1 E1] & Hc & Hm); try done.
    { intros h Hin. unfold subscribers. by rewrite E. }
    rewrite Hp. rewrite Hruns in Hp.
    simpl. exists (with_parked (S (parked w')) w'), tr.
    split_and!; [done| |done|done|].
    + split; simpl; try done.
      * rewrite R1. simpl. by rewrite <- !app_assoc.
      * unfold delivered, pushed in *. simpl. by f_equal.
      * rewrite C1. unfold delivered. simpl. lia.
      * repeat constructor. done.
    + exists q', w'. split_and!; [done|done|exact Hp|done].
  - exists (with_parked (S (parked w2)) w2), [].
    split_and!; [done| |done|done|].
    + split; simpl; try done.
      * by rewrite <- !app_assoc.
      * lia.
      * repeat constructor.
    + exists q', w2. by split_and!.
Qed.

Lemma invocations_handlers_called k e tr :
  invocations k e tr = length (filter (λ h, h = k) (handlers_called e tr)).
Proof.
  unfold invocations, handlers_called.
  induction tr as [|o tr IH]; [done|].
  destruct (decide (o = Called k e)) as [->|Hne].
  - rewrite filter_cons_True by done. cbn [omap list_omap].
    rewrite decide_True by done. rewrite filter_cons_True by done.
    simpl. by rewrite IH.
  - rewrite filter_cons_False by done. rewrite IH.
    destruct o as [x|x ts|h x]; cbn [omap list_omap]; try done.
    destruct (decide (x = e)) as [->|Hx]; [|done].
    rewrite filter_cons_False; [done|]. intros ->. by apply Hne.
Qed.

(** C4.  When the delivery of an event begins, the clock is read once,
    and that reading is the snapshot of the delivery: a call of [publish]
    reads the clock once per event whose delivery it begins, and it calls
    [handle] with the event exactly for the members of the subscriber set
    that have an enrollment timestamp for the event's type at or before the
    snapshot, so the [handle] of every other subscriber is not entered and
    the delivery does what these calls do.  Once the call has returned the
    event is drained: a subscriber that enrolls for the type only then is
    not called with it, not by the subscription and not when the parked
    activations are resumed, which do nothing at all. *)
Theorem subscription_timing n e w :
  idle w →
  ∃ w' tr, publish clock (S (S n)) e w = Some w'
    ∧ trace w' = trace w
        ++ Pushing e :: Handling e (clock (readings w)) :: tr
    ∧ readings w' = (readings w + length (delivered (Handling e (clock (readings w)) :: tr)))%nat
    ∧ (∀ h, (0 < invocations h e tr)%nat →
         ∃ subscriptionTime,
           enrollment w (type e) h = Some subscriptionTime
           ∧ subscriptionTime ≤ clock (readings w))
    ∧ (∀ h, h ∈ recipients clock e w
         ↔ h ∈ subscribers w (type e)
           ∧ ∃ subscriptionTime,
               enrollment w (type e) h = Some subscriptionTime
               ∧ subscriptionTime ≤ clock (readings w))
    ∧ handlers_called e tr = recipients clock e w
    ∧ delivers clock (S n) e (recipients clock e w) w w'
    ∧ ∀ o steps, (parked w' ≤ steps)%nat →
        ∃ w'', run_microtasks clock steps (S (S n))
                 (subscribe clock (type e) o w') = Some w''
          ∧ w'' = with_parked O (subscribe clock (type e) o w')
          ∧ trace w'' = trace w'
          ∧ (o ∉ subscribers w (type e) →
             invocations o e (trace w'') = invocations o e (trace w)).
Proof.
  intros Hi.
  destruct (publish_full n e w Hi) as (w' & tr & Hp & He & Hc & _ & Hd).
  assert (∀ h, h ∈ recipients clock e w
            ↔ h ∈ subscribers w (type e)
              ∧ ∃ subscriptionTime,
                  enrollment w (type e) h = Some subscriptionTime
                  ∧ subscriptionTime ≤ clock (readings w)) as Hrec.
  { intros h. unfold recipients. rewrite list_elem_of_filter.
    unfold eligible. split.
    - intros [H1 H2]. split; [done|].
      destruct (enrollment w (type e) h) as [ts|]; [|done].
      exists ts. split; [done|]. by apply bool_decide_unpack in H1.
    - intros [H1 (ts & -> & Hle)]. split; [|done]. by apply bool_decide_pack. }
  assert (∀ h, (0 < invocations h e tr)%nat → h ∈ recipients clock e w)
    as Hpos.
  { intros h. rewrite (invocations_handlers_called h e tr), Hc.
    destruct (filter _ (recipients clock e w)) as [|x l] eqn:E;
      [simpl; lia|]. intros _.
    assert (x ∈ x :: l) as Hx by by left.
    rewrite <- E in Hx. by apply list_elem_of_filter in Hx as [-> Hx]. }
  exists w', tr. split_and!; [done|apply He|apply He|..|done|done|].
  - intros h Hh. by apply Hrec, Hpos.
  - exact Hrec.
  - intros o steps Hsteps.
    destruct (subscribe_frame (type e) o w') as (Hq & Htr & _ & Hpk).
    rewrite run_microtasks_idle.
    + eexists. split; [done|]. split; [done|]. simpl. split; [done|].
      intros Ho. rewrite Htr, (eff_trace _ _ _ He).
      change (Pushing e :: Handling e (clock (readings w)) :: tr)
        with ([Pushing e; Handling e (clock (readings w))] ++ tr).
      rewrite !invocations_app.
      unfold invocations at 2. simpl.
      destruct (invocations o e tr) eqn:E; [lia|].
      exfalso. apply Ho. apply Hrec, Hpos. lia.
    + apply subscribe_idle, He.
    + by rewrite Hpk.
Qed.

(** C3.  Subscribing the same observer to the same type several times
    ([k + 1] times, for every [k]) gives the very world that subscribing
    once gives, so the subscriber set and the enrollment timestamp are the
    same; and a matching event published after that enters the observer's
    [handle] with that event exactly once more: the observer is once among
    the subscribers whose [handle] the delivery calls, and the delivery does
    what these calls do, one after the other. *)
Theorem subscribe_is_idempotent n t o k w :
  monotone clock → idle w → sets_ok w → timestamps_past clock w →
  Nat.iter (S k) (subscribe clock t o) w = subscribe clock t o w
  ∧ ∀ e, type e = t →
      ∃ w', publish clock (S (S n)) e (Nat.iter (S k) (subscribe clock t o) w)
            = Some w'
        ∧ invocations o e (trace w') = S (invocations o e (trace w))
        ∧ ∃ before after,
            (o ∉ before) ∧ (o ∉ after)
            ∧ delivers clock (S n) e (before ++ o :: after)
                (Nat.iter (S k) (subscribe clock t o) w) w'.
Proof.
  intros Hmono Hi Hs Hpast.
  assert (Nat.iter (S k) (subscribe clock t o) w = subscribe clock t o w)
    as Hiter.
  { induction k as [|k IH]; [done|].
    change (Nat.iter (S (S k)) (subscribe clock t o) w)
      with (subscribe clock t o (Nat.iter (S k) (subscribe clock t o) w)).
    rewrite IH. apply subscribe_again. }
  split; [done|]. intros e <-. rewrite Hiter.
  set (w1 := subscribe clock (type e) o w).
  assert (idle w1) as Hi1 by (by apply subscribe_idle).
  assert (sets_ok w1) as Hs1 by (by apply subscribe_sets_ok).
  assert (o ∈ subscribers w1 (type e)) as Hin.
  { unfold w1. rewrite subscribe_subscribers, decide_True by done.
    apply Set_add_elem. }
  assert (eligible w1 (type e) (clock (readings w1)) o) as Hel.
  { unfold eligible, enrollment, w1.
    rewrite subscribe_timestamps, decide_True by done.
    apply bool_decide_pack.
    pose proof (subscribe_readings (type e) o w) as Hr.
    unfold enrollment.
    destruct (_subscriptionTimestamps w !! _) as [ts|] eqn:E; simpl.
    + etrans; [by eapply Hpast|]. by apply Hmono.
    + by apply Hmono. }
  destruct (publish_full n e w1 Hi1) as (w' & tr & Hp & He & Hc & _ & Hd).
  exists w'. split_and!; [done|..].
  - rewrite (eff_trace _ _ _ He).
    change (Pushing e :: Handling e (clock (readings w1)) :: tr)
      with ([Pushing e; Handling e (clock (readings w1))] ++ tr).
    rewrite !invocations_app, (invocations_handlers_called o e tr), Hc.
    unfold recipients. rewrite filter_one by apply Hs1.
    rewrite decide_True by done.
    unfold w1. destruct (subscribe_frame (type e) o w) as (_ & -> & _).
    unfold invocations at 2. simpl. lia.
  - assert (o ∈ recipients clock e w1) as Hrec
      by (apply list_elem_of_filter; by split).
    assert (NoDup (recipients clock e w1)) as Hnd
      by (apply NoDup_filter, Hs1).
    apply list_elem_of_split in Hrec as (before & after & Heq).
    rewrite Heq in Hnd, Hd.
    apply NoDup_app in Hnd as (_ & Hdisj & Hnd).
    apply NoDup_cons in Hnd as [Hafter _].
    exists before, after. split_and!; [|done|done].
    intros Hb. apply (Hdisj o Hb). by left.
Qed.

(** C9.  The enrollment timestamp is kept under a string made of the
    event type and the observer's [toString()], and two keys are equal
    exactly when both parts are.  So for two distinct observers [a] and
    [b] with the same [toString()], both subscribed to type [t]: the
    subscription of [b] adds no entry, both are looked up under one key,
    and [unsubscribe(t, b)] deletes that entry; after it [a] is still in
    the subscriber set of [t], has no timestamp, and whatever events are
    published from then on, the [handle] of [a] is entered with none of
    type [t]: [a] is not among the subscribers whose [handle] a delivery
    of such an event calls, and the delivery does what these calls do. *)
Theorem subscription_key_is_shared n t a b w :
  a ≠ b → toString a = toString b → idle w →
  let w1 := subscribe clock t b (subscribe clock t a w) in
  let w2 := unsubscribe t b w1 in
  (∀ t1 s1 t2 s2,
     _getSubscriptionKey t1 s1 = _getSubscriptionKey t2 s2
     ↔ t1 = t2 ∧ toString s1 = toString s2)
  ∧ a ∈ subscribers w1 t ∧ b ∈ subscribers w1 t
  ∧ _subscriptionTimestamps w1
    = _subscriptionTimestamps (subscribe clock t a w)
  ∧ _getSubscriptionKey t a = _getSubscriptionKey t b
  ∧ is_Some (enrollment w1 t a)
  ∧ enrollment w2 t a = None
  ∧ a ∈ subscribers w2 t
  ∧ ∀ es, ∃ w', script clock (S (S n)) (map Publish es) w2 = Some w'
      ∧ (∀ e, type e = t →
           invocations a e (trace w') = invocations a e (trace w2))
      ∧ ∀ e, type e = t →
          (a ∉ recipients clock e w')
          ∧ ∃ w'', publish clock (S (S n)) e w' = Some w''
              ∧ delivers clock (S n) e (recipients clock e w') w' w''.
Proof.
  intros Hab Hstr Hi w1 w2.
  assert (_getSubscriptionKey t a = _getSubscriptionKey t b) as Hkey
    by (by apply _getSubscriptionKey_inj).
  assert (a ∈ subscribers w1 t) as Ha1.
  { unfold w1. rewrite !subscribe_subscribers, !decide_True by done.
    unfold Set_add at 1. case_decide; [apply Set_add_elem|].
    apply elem_of_app. left. apply Set_add_elem. }
  assert (is_Some (_subscriptions w1 !! t)) as [l Hl].
  { unfold subscribers in Ha1.
    destruct (_subscriptions w1 !! t); [eauto|]. by apply elem_of_nil in Ha1. }
  assert (enrollment w2 t a = None) as Hnone.
  { unfold enrollment, w2. rewrite unsubscribe_timestamps, Hl.
    by rewrite decide_True. }
  split_and!; try done.
  - apply _getSubscriptionKey_inj.
  - unfold w1. rewrite subscribe_subscribers, decide_True by done.
    apply Set_add_elem.
  - apply map_eq. intros k. unfold w1. rewrite !subscribe_timestamps.
    rewrite <- Hkey. case_decide; [|done].
    unfold enrollment at 1. rewrite subscribe_timestamps.
    by rewrite decide_True.
  - unfold enrollment, w1. rewrite subscribe_timestamps, Hkey.
    rewrite decide_True by done. eauto.
  - unfold w2. rewrite unsubscribe_subscribers, decide_True by done.
    apply list_elem_of_filter. split; [done|exact Ha1].
  - intros es.
    destruct (script_publish_effect n es w2) as (w' & tr & Hp & He).
    { unfold w2, w1. by apply unsubscribe_idle, subscribe_idle, subscribe_idle. }
    exists w'. split_and!; [done|..].
    + intros e <-. rewrite (eff_trace _ _ _ He), invocations_app.
      rewrite (invocations_not_enrolled w2 tr a e); [lia|apply He|done].
    + intros e <-. split.
      * unfold recipients. rewrite list_elem_of_filter. intros [Hel _].
        unfold eligible, enrollment in Hel.
        rewrite (eff_timestamps _ _ _ He) in Hel.
        unfold enrollment in Hnone. by rewrite Hnone in Hel.
      * destruct (publish_full n e w' (eff_idle _ _ _ He))
          as (w'' & tr' & Hp' & _ & _ & _ & Hd).
        by exists w''.
Qed.

(** *** What the calls of a delivery do to the machines *)

Lemma handle_machines_frame e ms h :
  length (handle_machines e ms h) = length ms
  ∧ (∀ r, id <$> handle_machines e ms h !! r = id <$> ms !! r)
  ∧ ∀ r m, ms !! r = Some m → id m ≠ machineId e →
      handle_machines e ms h !! r = Some m.
Proof.
  unfold handle_machines. destruct (reacts h e) as [amount|]; [|done].
  pose proof (getEventMachine_spec h e (new_world ms)) as Hspec.
  destruct (getEventMachine h e (new_world ms)) as [r'|]; [|done].
  destruct Hspec as (_ & m' & _ & Hm' & Hid' & _). simpl in Hm'.
  split_and!.
  - apply length_alter.
  - intros r. destruct (decide (r' = r)) as [<-|Hne].
    + rewrite list_lookup_alter_eq, Hm'. done.
    + by rewrite list_lookup_alter_ne.
  - intros r m Hm Hid. rewrite list_lookup_alter_ne; [done|].
    intros ->. congruence.
Qed.

Lemma foldl_handle_machines_frame e l : ∀ ms,
  length (foldl (handle_machines e) ms l) = length ms
  ∧ (∀ r, id <$> foldl (handle_machines e) ms l !! r = id <$> ms !! r)
  ∧ ∀ r m, ms !! r = Some m → id m ≠ machineId e →
      foldl (handle_machines e) ms l !! r = Some m.
Proof.
  induction l as [|h l IH]; intros ms; [done|]. simpl.
  destruct (handle_machines_frame e ms h) as (Hlen & Hids & Hother).
  destruct (IH (handle_machines e ms h)) as (Hlen' & Hids' & Hother').
  split_and!.
  - congruence.
  - intros r. by rewrite Hids'.
  - intros r m Hm Hid. apply Hother'; [|done]. by apply Hother.
Qed.

Lemma handle_machines_ignores e ms h w :
  machine_store w = ms → ignores w e h → handle_machines e ms h = ms.
Proof.
  intros <- Hig. unfold handle_machines.
  change (getEventMachine h e (new_world (machine_store w)))
    with (getEventMachine h e w).
  destruct Hig as [-> | ->]; [done|]. by destruct (reacts h e).
Qed.

Lemma handle_machines_derived e ms h :
  derived e = true → handle_machines e ms h = ms.
Proof.
  intros Hd. unfold handle_machines, reacts. by destruct (class_of h), e.
Qed.

Lemma foldl_handle_machines_derived e l : ∀ ms,
  derived e = true → foldl (handle_machines e) ms l = ms.
Proof.
  induction l as [|h l IH]; intros ms Hd; [done|]. simpl.
  rewrite handle_machines_derived by done. by apply IH.
Qed.

(** Sale subscribers that all find the machine [r]: each takes the sold
    quantity, exactly so while the levels are safe integers. *)
Lemma foldl_sale mid sold r l : ∀ ms m,
  (∀ h, h ∈ l →
     class_of h = MachineSaleSubscriber
     ∧ getEventMachine h (MachineSaleEvent mid sold) (new_world ms) = Some r) →
  ms !! r = Some m →
  sums_safe (stockLevel m) (replicate (length l) (- sold)) →
  foldl (handle_machines (MachineSaleEvent mid sold)) ms l !! r
  = Some {| id := id m;
            stockLevel := stockLevel m - sold * Z.of_nat (length l) |}.
Proof.
  induction l as [|h l IH]; intros ms m Hl Hm Hsafe.
  - simpl. rewrite Hm. f_equal. destruct m as [i s]. simpl. f_equal. lia.
  - simpl in Hsafe. destruct Hsafe as [Hs1 Hsafe].
    destruct (Hl h) as [Hc Hg]; [by left|].
    simpl foldl.
    assert (handle_machines (MachineSaleEvent mid sold) ms h
            = alter (adjust (- sold)) r ms) as Hstep.
    { unfold handle_machines, reacts. by rewrite Hc, Hg. }
    rewrite Hstep.
    assert (alter (adjust (- sold)) r ms !! r
            = Some {| id := id m; stockLevel := stockLevel m + - sold |})
      as Hm1.
    { rewrite list_lookup_alter_eq, Hm. simpl. f_equal. unfold adjust.
      f_equal. by apply stock_after_safe. }
    assert (∀ k, k ∈ l →
              class_of k = MachineSaleSubscriber
              ∧ getEventMachine k (MachineSaleEvent mid sold)
                  (new_world (alter (adjust (- sold)) r ms)) = Some r) as Hl'.
    { intros k Hk. destruct (Hl k) as [Hck Hgk]; [by right|].
      split; [done|]. rewrite <- Hgk. apply getEventMachine_ids.
      intros i. simpl. destruct (decide (r = i)) as [<-|Hne].
      - rewrite list_lookup_alter_eq, Hm. done.
      - by rewrite list_lookup_alter_ne. }
    rewrite (IH _ _ Hl' Hm1 Hsafe). simpl. f_equal. f_equal. lia.
Qed.

(** X3.  [getEventMachine] returns the first machine of the subscriber's
    array whose id is the event's machine id, and [undefined] exactly when
    the array has no machine with that id. *)
Theorem getEventMachine_first_match this event w :
  match getEventMachine this event w with
  | Some r =>
      ∃ i m, machines this !! i = Some r
        ∧ machine_store w !! r = Some m ∧ id m = machineId event
        ∧ ∀ j r', machines this !! j = Some r' → (j < i)%nat →
            id <$> machine_store w !! r' ≠ Some (machineId event)
  | None =>
      ∀ r, r ∈ machines this →
        id <$> machine_store w !! r ≠ Some (machineId event)
  end.
Proof. apply getEventMachine_spec. Qed.

(** *** Deliveries, one event at a time *)

(** X4.  A delivery calls the subscribers of the event's type that have an
    enrollment timestamp at or before the delivery's snapshot, each once, in
    the order in which they were added to the set, and no one else: the
    entries of [handle] with the event are theirs, in that order, and what
    the call of [publish] does between the entry of [_handle] and its return
    is what the calls of their [handle], one after the other, do. *)
Theorem handlers_called_in_subscription_order n e w :
  idle w →
  ∃ w' tr, publish clock (S (S n)) e w = Some w'
    ∧ trace w' = trace w
        ++ Pushing e :: Handling e (clock (readings w)) :: tr
    ∧ handlers_called e tr
      = filter (λ h, eligible w (type e) (clock (readings w)) h)
          (subscribers w (type e))
    ∧ delivers clock (S n) e
        (filter (λ h, eligible w (type e) (clock (readings w)) h)
           (subscribers w (type e))) w w'.
Proof.
  intros Hi.
  destruct (publish_full n e w Hi) as (w' & tr & Hp & He & Hc & _ & Hd).
  exists w', tr. split_and!; [done|apply He|done|done].
Qed.

(** X5.  A delivery does to the machines what the called subscribers do,
    one after the other in the order of the calls: a sale subscriber called
    with a sale event, and a refill subscriber called with a refill event,
    adjusts the first machine of its array that has the event's machine id,
    by minus the sold quantity or plus the refill quantity, as JavaScript
    adds them (the sum rounded to the nearest double); every other call
    changes no machine, and neither do the events that the machines publish
    on the way. *)
Theorem publish_moves_stock n e w :
  idle w →
  ∃ w', publish clock (S (S n)) e w = Some w'
    ∧ machine_store w'
      = foldl (handle_machines e) (machine_store w)
          (filter (λ h, eligible w (type e) (clock (readings w)) h)
             (subscribers w (type e))).
Proof.
  intros Hi.
  destruct (publish_full n e w Hi) as (w' & tr & Hp & _ & _ & Hm & _).
  by exists w'.
Qed.

(** X6.  Every sale subscriber that is called takes the sold quantity: when
    the [k] subscribers called with a sale event are sale subscribers that
    all find the machine [r] for it, and the stock levels on the way are
    safe integers, the stock of [r] goes down by [k] times the sold
    quantity; two sale subscribers enrolled for Sale take it twice. *)
Theorem sale_is_taken_once_per_subscriber n mid sold r m w :
  idle w → machine_store w !! r = Some m →
  (∀ h, h ∈ subscribers w Sale →
     class_of h = MachineSaleSubscriber
     ∧ getEventMachine h (MachineSaleEvent mid sold) w = Some r) →
  sums_safe (stockLevel m)
    (replicate
       (length (filter (λ h, eligible w Sale (clock (readings w)) h)
                  (subscribers w Sale)))
       (- sold)) →
  ∃ w', publish clock (S (S n)) (MachineSaleEvent mid sold) w = Some w'
    ∧ stock w' r
      = Some (stockLevel m
              - sold * Z.of_nat
                  (length (filter (λ h, eligible w Sale (clock (readings w)) h)
                             (subscribers w Sale)))).
Proof.
  intros Hi Hm Hall Hsafe.
  destruct (publish_full n (MachineSaleEvent mid sold) w Hi)
    as (w' & tr & Hp & _ & _ & Hs & _).
  exists w'. split; [done|]. unfold stock. rewrite Hs.
  unfold recipients. simpl.
  rewrite (foldl_sale mid sold r _ _ m); [done| |done|done].
  intros h Hh. apply list_elem_of_filter in Hh as [_ Hh]. by apply Hall.
Qed.

Lemma handle_ignores publish h e w :
  ignores w e h → handle_of_class publish h e w = Some w.
Proof.
  intros Hig. rewrite handle_reacts.
  destruct Hig as [-> | ->]; [done|]. by destruct (reacts h e).
Qed.

Lemma forEach_ignored publish e asOf w0 l :
  (∀ h, h ∈ l → ignores w0 e h) → ∀ w,
  machine_store w = machine_store w0 →
  ∃ w', Set_forEach (_handle_each publish e asOf) l w = Some w'
    ∧ _subscriptions w' = _subscriptions w
    ∧ _subscriptionTimestamps w' = _subscriptionTimestamps w
    ∧ _eventQueue w' = _eventQueue w
    ∧ machine_store w' = machine_store w
    ∧ readings w' = readings w
    ∧ parked w' = parked w
    ∧ trace w' = trace w
        ++ map (λ h, Called h e) (filter (λ h, eligible w (type e) asOf h) l).
Proof.
  induction l as [|h l IH]; intros Hl w Hm; simpl.
  - eexists. split; [done|]. rewrite app_nil_r. done.
  - assert (_handle_each publish e asOf h w =
            Some (if eligible w (type e) asOf h
                  then observe (Called h e) w else w)) as ->.
    { rewrite _handle_each_eq. destruct (eligible w (type e) asOf h); [|done].
      apply handle_ignores.
      destruct (Hl h) as [Hr|Hg]; [by left|by left|right].
      unfold getEventMachine in *. simpl. by rewrite Hm. }
    assert (∀ k, k ∈ l → ignores w0 e k) as Hl'
      by (intros k Hk; apply Hl; by right).
    simpl. destruct (eligible w (type e) asOf h) eqn:E.
    + rewrite filter_cons_True by (by apply Is_true_true).
      destruct (IH Hl' (observe (Called h e) w) Hm)
        as (w' & -> & ? & ? & ? & ? & ? & ? & Htr).
      eexists. split; [done|]. repeat split; try done.
      rewrite Htr. simpl. rewrite <- app_assoc. done.
    + rewrite filter_cons_False by (by apply Is_true_false).
      destruct (IH Hl' w Hm) as (w' & -> & ? & ? & ? & ? & ? & ? & Htr).
      eexists. split; [done|]. repeat split; done.
Qed.

(** X7.  An event that no subscriber of its type reacts to is delivered and
    nothing else happens: when each subscriber in the set of the event's
    type is of a class that ignores the event's class, or finds no machine
    with the event's machine id in its array, [publish] returns, the
    eligible subscribers were called in order, no machine and no
    subscription changed, and no further event was published.  This
    includes the event types without any subscriber. *)
Theorem ignored_event_changes_nothing n e w :
  idle w →
  (∀ h, h ∈ subscribers w (type e) → ignores w e h) →
  ∃ w', publish clock (S n) e w = Some w'
    ∧ machine_store w' = machine_store w
    ∧ _subscriptions w' = _subscriptions w
    ∧ _subscriptionTimestamps w' = _subscriptionTimestamps w
    ∧ idle w'
    ∧ trace w' = trace w
        ++ Pushing e :: Handling e (clock (readings w))
        :: map (λ h, Called h e)
             (filter (λ h, eligible w (type e) (clock (readings w)) h)
                (subscribers w (type e))).
Proof.
  intros [Hh Ht] Hig.
  change (publish clock (S n) e w) with
    (_processEvents clock (publish clock n)
       (with_queue (Queue.enqueue e (_eventQueue (observe (Pushing e) w)))
          (observe (Pushing e) w))).
  unfold _processEvents. simpl.
  destruct (dequeue_enqueue_idle e _ Hh Ht) as (q' & -> & Hh' & Ht').
  simpl. unfold _handle. simpl. unfold subscribers in *.
  destruct (_subscriptions w !! type e) as [l|] eqn:E; simpl in *.
  - edestruct (forEach_ignored (publish clock n) e (clock (readings w)) w l Hig)
      as (w' & -> & ? & ? & Hq & ? & ? & ? & Htr); [reflexivity|].
    simpl in *. eexists. split; [done|].
    split_and!; simpl; try congruence.
    + split; simpl; congruence.
    + rewrite Htr, <- !app_assoc. done.
  - eexists. split; [done|]. split_and!; simpl; try done.
    rewrite <- !app_assoc. done.
Qed.

(** X8.  The events that machines publish are inert: whoever publishes a
    LowStockWarning or StockLevelOk event (also a sale or refill subscriber
    may be enrolled for these types), no machine changes and the trace grows
    by the push, the delivery and the calls of the eligible subscribers, so
    no further event follows. *)
Theorem derived_event_is_inert n e w :
  derived e = true → idle w →
  ∃ w', publish clock (S n) e w = Some w'
    ∧ machine_store w' = machine_store w
    ∧ pushed (trace w') = pushed (trace w) ++ [e]
    ∧ delivered (trace w') = delivered (trace w) ++ [e]
    ∧ idle w'.
Proof.
  intros Hd Hi.
  destruct (publish_derived_effect n e w Hd Hi) as (w' & tr & Hp & He & _ & Hpu & HM).
  exists w'. split_and!; [done|done|..|apply He].
  - by rewrite (eff_trace _ _ _ He), pushed_app, Hpu.
  - by rewrite (eff_trace _ _ _ He), delivered_app, (eff_fifo _ _ _ He), Hpu.
Qed.

(** X9.  [publish] never changes who is subscribed: after any number of
    [publish] calls the subscriber sets and the enrollment timestamps are
    what they were, and every call of a [handle] that was made went to a
    member of the set of the event's type that has an enrollment
    timestamp. *)
Theorem publish_keeps_registry n es w :
  idle w →
  ∃ w' tr, script clock (S (S n)) (map Publish es) w = Some w'
    ∧ _subscriptions w' = _subscriptions w
    ∧ _subscriptionTimestamps w' = _subscriptionTimestamps w
    ∧ trace w' = trace w ++ tr
    ∧ Forall (enrolled w) tr.
Proof.
  intros Hi. destruct (script_publish_effect n es w Hi) as (w' & tr & Hp & He).
  exists w', tr. split_and!; [done|apply He..].
Qed.


(** X10.  The rest of the loop of [_processEvents] never delivers anything:
    after any script, the activations that are parked at their [await] find
    the queue empty when they are resumed and end; resuming them changes
    nothing but their number. *)
Theorem parked_activations_deliver_nothing n cs w :
  idle w →
  ∃ w', script clock (S (S n)) cs w = Some w'
    ∧ ∀ steps, (parked w' ≤ steps)%nat →
        run_microtasks clock steps (S (S n)) w' = Some (with_parked O w').
Proof.
  intros Hi. destruct (script_fifo n cs w Hi) as (w' & tr & Hp & Hi' & _).
  exists w'. split; [done|]. intros steps Hs. by apply run_microtasks_idle.
Qed.

(** *** Subscribing and unsubscribing *)

Lemma filter_other (o : Subscriber) (l : list Subscriber) :
  o ∉ l → filter (λ h, h ≠ o) l = l.
Proof.
  induction l as [|x l IH]; intros Hnot; [done|].
  apply not_elem_of_cons in Hnot as [Hne Hnot].
  rewrite filter_cons_True by congruence. by rewrite IH.
Qed.

Lemma subscribe_has_set t o w :
  is_Some (_subscriptions (subscribe clock t o w) !! t).
Proof.
  unfold subscribe.
  destruct (_subscriptions w !! t); simpl;
    destruct (_subscriptionTimestamps w !! _); simpl;
    rewrite lookup_insert_eq; eauto.
Qed.

(** X11.  A subscription that is taken back leaves no trace in the
    registry: for an observer that is not in the set of the type and whose
    key has no timestamp, [subscribe] followed by [unsubscribe] leaves every
    subscriber set and every enrollment timestamp as before (and the queue,
    the machines and the trace untouched). *)
Theorem subscribe_unsubscribe_round_trip t o w :
  o ∉ subscribers w t → enrollment w t o = None →
  (∀ t', subscribers (unsubscribe t o (subscribe clock t o w)) t'
         = subscribers w t')
  ∧ _subscriptionTimestamps (unsubscribe t o (subscribe clock t o w))
    = _subscriptionTimestamps w
  ∧ _eventQueue (unsubscribe t o (subscribe clock t o w)) = _eventQueue w
  ∧ machine_store (unsubscribe t o (subscribe clock t o w)) = machine_store w
  ∧ trace (unsubscribe t o (subscribe clock t o w)) = trace w.
Proof.
  intros Hnot Hnone.
  destruct (unsubscribe_frame t o (subscribe clock t o w))
    as (Hq & Htr & Hm & _ & _).
  destruct (subscribe_frame t o w) as (Hq' & Htr' & Hm' & _).
  split_and!; try congruence.
  - intros t'. rewrite unsubscribe_subscribers, !subscribe_subscribers.
    case_decide; [|done]. subst t'. rewrite decide_True by done.
    unfold Set_add. rewrite decide_False by done.
    unfold Set_delete. rewrite filter_app, filter_other by done.
    rewrite filter_cons_False by (intros H; by apply H). by rewrite app_nil_r.
  - apply map_eq. intros k. rewrite unsubscribe_timestamps.
    destruct (subscribe_has_set t o w) as [l ->].
    rewrite subscribe_timestamps. case_decide; [by subst k|done].
Qed.

(** X12.  Subscribing to or unsubscribing from one event type touches no
    other type: the subscriber set of every other type and the enrollment
    timestamp of every subscriber for every other type stay as they are. *)
Theorem other_types_untouched t t' o h w :
  t' ≠ t →
  subscribers (subscribe clock t o w) t' = subscribers w t'
  ∧ enrollment (subscribe clock t o w) t' h = enrollment w t' h
  ∧ subscribers (unsubscribe t o w) t' = subscribers w t'
  ∧ enrollment (unsubscribe t o w) t' h = enrollment w t' h.
Proof.
  intros Hne.
  assert (_getSubscriptionKey t' h ≠ _getSubscriptionKey t o) as Hk.
  { intros Heq. apply _getSubscriptionKey_inj in Heq as [? _]. done. }
  split_and!.
  - by rewrite subscribe_subscribers, decide_False.
  - unfold enrollment at 1. by rewrite subscribe_timestamps, decide_False.
  - by rewrite unsubscribe_subscribers, decide_False.
  - unfold enrollment at 1. rewrite unsubscribe_timestamps.
    destruct (_subscriptions w !! t); [|done]. by rewrite decide_False.
Qed.

(** X13.  [unsubscribe] is idempotent and final: a second call changes
    nothing more, the observer is no longer in the set of the type, and
    whatever is published afterwards, the observer is called with no event
    of that type. *)
Theorem unsubscribe_silences n t o w :
  idle w →
  unsubscribe t o (unsubscribe t o w) = unsubscribe t o w
  ∧ (o ∉ subscribers (unsubscribe t o w) t)
  ∧ ∀ es, ∃ w', script clock (S (S n)) (map Publish es) (unsubscribe t o w)
                = Some w'
      ∧ ∀ e, type e = t →
          invocations o e (trace w') = invocations o e (trace w).
Proof.
  intros Hi. split; [apply unsubscribe_again|].
  by apply unsubscribe_unenrolls.
Qed.

(** *** The machines, once more *)

(** X14.  A stock adjustment touches one machine: whatever the amount and
    whatever event it makes the machine publish, the other machines are as
    before, the adjusted machine keeps its id, no machine is added or
    removed, and the subscriptions are as before. *)
Theorem _addStock_touches_one_machine n this amount w :
  idle w →
  ∃ w', _addStock (publish clock (S n)) this amount w = Some w'
    ∧ length (machine_store w') = length (machine_store w)
    ∧ (∀ r, r ≠ this → machine_store w' !! r = machine_store w !! r)
    ∧ id <$> machine_store w' !! this = id <$> machine_store w !! this
    ∧ _subscriptions w' = _subscriptions w
    ∧ _subscriptionTimestamps w' = _subscriptionTimestamps w.
Proof.
  intros Hi. destruct (machine_store w !! this) as [m|] eqn:Hm.
  - destruct (_addStock_store n this amount m w Hi Hm)
      as (w' & tr & Hp & He & _ & HM).
    exists w'. split_and!; [done|..|apply He|apply He].
    + by rewrite HM, length_insert.
    + intros r Hr. by rewrite HM, list_lookup_insert_ne.
    + rewrite HM, list_lookup_insert_eq by (by eapply lookup_lt_Some). done.
  - exists w. split_and!; try done.
    + by apply _addStock_no_machine.
    + by rewrite Hm.
Qed.

(** X15.  Adjustments add up: any sequence of adjustments of a machine
    returns, whatever events are published on the way, and when the stock
    levels on the way are safe integers it leaves the machine with its id
    and with its first stock level plus the sum of the amounts. *)
Theorem adjustments_add_up n this amounts : ∀ m w,
  idle w → machine_store w !! this = Some m →
  ∃ w', adjustments (publish clock (S n)) this amounts w = Some w'
    ∧ idle w'
    ∧ (sums_safe (stockLevel m) amounts →
       machine_store w' !! this
       = Some {| id := id m;
                 stockLevel := stockLevel m + foldr Z.add 0 amounts |}).
Proof.
  induction amounts as [|amount amounts IH]; intros m w Hi Hm; simpl.
  - exists w. split_and!; [done|done|]. intros _. rewrite Hm. f_equal.
    rewrite Z.add_0_r. by destruct m.
  - destruct (_addStock_stock n this amount m w Hi Hm)
      as (w1 & tr & -> & He & Hm1).
    simpl. destruct (IH _ w1 (eff_idle _ _ _ He) Hm1) as (w' & -> & Hi' & Hm').
    exists w'. split_and!; [done|done|]. intros [Hs1 Hsafe].
    simpl in Hm'. rewrite stock_after_safe in Hm' by done.
    rewrite Hm' by done. f_equal. f_equal. lia.
Qed.

(** X16.  The warnings and the all-clears of a machine alternate: over any
    sequence of adjustments of one machine, the events published are, in
    order, StockLevelOk, LowStockWarning, StockLevelOk, ... when the machine
    starts at or below the threshold, and LowStockWarning, StockLevelOk,
    ... when it starts above; the same event is never published twice in a
    row. *)
Theorem crossing_events_alternate n this amounts : ∀ m w,
  idle w → machine_store w !! this = Some m →
  ∃ w' tr, adjustments (publish clock (S n)) this amounts w = Some w'
    ∧ trace w' = trace w ++ tr
    ∧ alternating (bool_decide (stockLevel m ≤ LowStockThreshold)) (id m)
        (pushed tr).
Proof.
  induction amounts as [|amount amounts IH]; intros m w Hi Hm; simpl.
  - exists w, []. split_and!; [done|by rewrite app_nil_r|done].
  - assert (∃ w1 tr1,
              _addStock (publish clock (S n)) this amount w = Some w1
              ∧ idle w1
              ∧ machine_store w1 !! this = Some (adjust amount m)
              ∧ trace w1 = trace w ++ tr1
              ∧ ∀ rest,
                  alternating
                    (bool_decide
                       (stock_after (stockLevel m) amount ≤ LowStockThreshold))
                    (id m) rest →
                  alternating (bool_decide (stockLevel m ≤ LowStockThreshold))
                    (id m) (pushed tr1 ++ rest))
      as (w1 & tr1 & -> & Hi1 & Hm1 & Htr1 & Halt).
    { destruct (decide (amount = 0)) as [->|Ha].
      - exists w, []. split_and!; try done.
        + rewrite Hm. by destruct m.
        + by rewrite app_nil_r.
      - destruct (_addStock_spec n this amount m w Hi Hm Ha)
          as (w1 & tr1 & Hp & He & _ & HM & Hcases).
        pose proof (stock_after_side (stockLevel m) amount) as Hs.
        exists w1, tr1. split_and!; [done|apply He| |apply He|].
        + rewrite HM. unfold adjust. rewrite stock_after_nonzero by done.
          apply list_lookup_insert_eq. by eapply lookup_lt_Some.
        + intros rest.
          destruct Hcases as [(?&?&->)|[(?&?&->)|[Hside ->]]]; simpl.
          * rewrite (bool_decide_true (stockLevel m ≤ LowStockThreshold)),
              (bool_decide_false
                 (stock_after (stockLevel m) amount ≤ LowStockThreshold))
              by lia. done.
          * rewrite (bool_decide_false (stockLevel m ≤ LowStockThreshold)),
              (bool_decide_true
                 (stock_after (stockLevel m) amount ≤ LowStockThreshold))
              by lia. done.
          * destruct Hside as [[? ?]|[? ?]].
            -- rewrite (bool_decide_true (stockLevel m ≤ LowStockThreshold)),
                 (bool_decide_true
                    (stock_after (stockLevel m) amount ≤ LowStockThreshold))
                 by lia. done.
            -- rewrite (bool_decide_false (stockLevel m ≤ LowStockThreshold)),
                 (bool_decide_false
                    (stock_after (stockLevel m) amount ≤ LowStockThreshold))
                 by lia. done. }
    simpl. destruct (IH _ w1 Hi1 Hm1) as (w' & tr2 & -> & Htr2 & Halt2).
    exists w', (tr1 ++ tr2). split_and!; [done|..].
    + by rewrite Htr2, Htr1, app_assoc.
    + rewrite pushed_app. apply Halt. exact Halt2.
Qed.

(** X17.  In straight-line use the time check of a delivery excludes no
    one: with a clock that does not run backwards, in every state that a
    script reaches from a fresh service, a subscriber passes the check
    [subscriptionTime <= handleTime] of any later delivery exactly when its
    key has a timestamp at all. *)
Theorem enrolled_is_eligible n cs ms :
  monotone clock →
  ∃ w', script clock (S (S n)) cs (new_world ms) = Some w'
    ∧ ∀ t h later, (readings w' ≤ later)%nat →
        (eligible w' t (clock later) h ↔ is_Some (enrollment w' t h)).
Proof.
  intros Hmono.
  destruct (reachable_ok n cs ms Hmono) as (w' & Hp & _ & _ & Hpast & _).
  exists w'. split; [done|]. intros t h later Hlater.
  unfold eligible, enrollment.
  destruct (_subscriptionTimestamps w' !! _) as [ts|] eqn:E.
  - split; [eauto|]. intros _. apply bool_decide_pack.
    etrans; [by eapply Hpast|]. by apply Hmono.
  - split; [done|]. by intros [? ?].
Qed.


(** X19.  An event reaches only the machine it names: a delivery adds and
    removes no machine, every machine keeps its reference and its id, and a
    machine whose id is not the event's machine id keeps its stock level,
    whatever is subscribed. *)
Theorem publish_touches_only_the_named_machine n e w :
  idle w →
  ∃ w', publish clock (S (S n)) e w = Some w'
    ∧ length (machine_store w') = length (machine_store w)
    ∧ (∀ r, id <$> machine_store w' !! r = id <$> machine_store w !! r)
    ∧ ∀ r m, machine_store w !! r = Some m → id m ≠ machineId e →
        machine_store w' !! r = Some m.
Proof.
  intros Hi.
  destruct (publish_full n e w Hi) as (w' & tr & Hp & _ & _ & Hs & _).
  destruct (foldl_handle_machines_frame e (recipients clock e w)
              (machine_store w)) as (Hlen & Hids & Hother).
  exists w'. rewrite Hs. by split_and!.
Qed.

(** *** The main program *)

Lemma main_getEventMachine a b c w h e :
  machine_store w
  = [ {| id := "001"; stockLevel := a |}; {| id := "002"; stockLevel := b |};
      {| id := "003"; stockLevel := c |} ] →
  machines h = [0; 1; 2]%nat →
  getEventMachine h e w =
  if decide (machineId e = "001") then Some 0%nat
  else if decide (machineId e = "002") then Some 1%nat
  else if decide (machineId e = "003") then Some 2%nat
  else None.
Proof.
  intros Hm Hh. unfold getEventMachine. rewrite Hm, Hh. simpl.
  repeat case_decide; first [done | congruence].
Qed.

Lemma main_step n a b c e w :
  monotone clock → main_state clock a b c w →
  safe_integer (a + change "001" e) →
  safe_integer (b + change "002" e) →
  safe_integer (c + change "003" e) →
  ∃ w', publish clock (S (S n)) e w = Some w'
    ∧ main_state clock (a + change "001" e) (b + change "002" e)
        (c + change "003" e) w'.
Proof.
  intros Hmono (Hi & Hm & Hsale & Hrefill & [ts1 Hs1] & [ts2 Hs2] & Hpast)
         Ha Hb Hc.
  assert (eligible w Sale (clock (readings w)) main_saleSubscriber = true) as E1.
  { unfold eligible. rewrite Hs1. apply bool_decide_eq_true. by eapply Hpast. }
  assert (eligible w Refill (clock (readings w)) main_refillSubscriber = true)
    as E2.
  { unfold eligible. rewrite Hs2. apply bool_decide_eq_true. by eapply Hpast. }
  destruct (publish_full n e w Hi) as (w' & tr & Hp & He & _ & Hsh & _).
  exists w'. split; [done|].
  assert (∀ t, subscribers w' t = subscribers w t) as Hsubs
    by (intros t; unfold subscribers; by rewrite (eff_subscriptions _ _ _ He)).
  assert (∀ t h, enrollment w' t h = enrollment w t h) as Hen
    by (intros t h; unfold enrollment; by rewrite (eff_timestamps _ _ _ He)).
  split_and!.
  - apply He.
  - rewrite Hsh, Hm. unfold recipients.
    destruct e as [mid sold|mid refill|mid|mid];
      [| |rewrite foldl_handle_machines_derived by done; simpl;
          by rewrite !Z.add_0_r..].
    + simpl type. rewrite Hsale.
      rewrite filter_cons_True, filter_nil by (by apply Is_true_true).
      simpl foldl. unfold handle_machines. simpl reacts.
      rewrite (main_getEventMachine a b c) by done.
      simpl in Ha, Hb, Hc. simpl machineId. simpl change.
      repeat case_decide; simplify_eq; simpl;
        unfold adjust; simpl; rewrite ?stock_after_safe by done;
        rewrite ?Z.add_0_r; done.
    + simpl type. rewrite Hrefill.
      rewrite filter_cons_True, filter_nil by (by apply Is_true_true).
      simpl foldl. unfold handle_machines. simpl reacts.
      rewrite (main_getEventMachine a b c) by done.
      simpl in Ha, Hb, Hc. simpl machineId. simpl change.
      repeat case_decide; simplify_eq; simpl;
        unfold adjust; simpl; rewrite ?stock_after_safe by done;
        rewrite ?Z.add_0_r; done.
  - by rewrite Hsubs.
  - by rewrite Hsubs.
  - rewrite Hen. eauto.
  - rewrite Hen. eauto.
  - by eapply Effect_timestamps_past.
Qed.

Lemma main_publishes n events : ∀ a b c w,
  monotone clock → main_state clock a b c w → books_safe a b c events →
  ∃ w', script clock (S (S n)) (map Publish events) w = Some w'
    ∧ main_state clock (a + net "001" events) (b + net "002" events)
        (c + net "003" events) w'.
Proof.
  induction events as [|e events IH]; intros a b c w Hmono Hst Hsafe.
  - exists w. split; [done|]. simpl. by rewrite !Z.add_0_r.
  - change (script clock (S (S n)) (map Publish (e :: events)) w)
      with (publish clock (S (S n)) e w
            ≫= script clock (S (S n)) (map Publish events)).
    destruct Hsafe as (Ha & Hb & Hc & Hsafe).
    destruct (main_step n a b c e w Hmono Hst Ha Hb Hc) as (w1 & -> & Hst1).
    destruct (IH _ _ _ w1 Hmono Hst1 Hsafe) as (w' & Hp & Hst').
    exists w'. split; [done|]. simpl. by rewrite !Z.add_assoc.
Qed.

Lemma main_setup_state :
  monotone clock →
  ∃ w, script clock 1 main_setup (new_world main_machines) = Some w
    ∧ main_state clock 10 10 10 w.
Proof.
  intros Hmono. eexists. split; [reflexivity|].
  destruct (new_world_ok main_machines) as (Hi & _ & Hpast).
  split_and!.
  - by repeat apply subscribe_idle.
  - by rewrite !(proj1 (proj2 (proj2 (subscribe_frame _ _ _)))).
  - rewrite !subscribe_subscribers. simpl. unfold subscribers. simpl.
    by rewrite lookup_empty.
  - rewrite !subscribe_subscribers. simpl. unfold subscribers. simpl.
    by rewrite lookup_empty.
  - unfold enrollment. rewrite !subscribe_timestamps. simpl. eauto.
  - unfold enrollment. rewrite !subscribe_timestamps. simpl. eauto.
  - by repeat apply subscribe_timestamps_past.
Qed.

(** The events of [eventGenerator] keep the books within the safe integers:
    the five events of the program do, and so does every list of them that
    anyone could publish in a lifetime. *)
Lemma generated_books_safe events : ∀ a b c,
  Forall generated events →
  Z.abs a + 5 * Z.of_nat (length events) ≤ MAX_SAFE_INTEGER →
  Z.abs b + 5 * Z.of_nat (length events) ≤ MAX_SAFE_INTEGER →
  Z.abs c + 5 * Z.of_nat (length events) ≤ MAX_SAFE_INTEGER →
  books_safe a b c events.
Proof.
  induction events as [|e events IH]; intros a b c Hgen Ha Hb Hc; [done|].
  apply Forall_cons in Hgen as [He Hgen].
  assert (∀ machine, -2 ≤ change machine e ≤ 5) as Hch.
  { intros machine. destruct e as [mid q|mid q|mid|mid]; simpl in *;
      try done; case_decide; lia. }
  pose proof (Hch "001"%string). pose proof (Hch "002"%string).
  pose proof (Hch "003"%string).
  simpl length in *. rewrite Nat2Z.inj_succ in Ha, Hb, Hc.
  simpl. unfold safe_integer. split_and!; try lia. apply IH; [done|lia..].
Qed.

(** X18.  The main program keeps the books of its machines: with a clock
    that does not run backwards and whatever events it generated, as long
    as they leave the stock levels safe integers (the five events of the
    program, with quantities from 1 to 5, do), it runs to its end, and then
    each of the machines "001", "002" and "003" holds the 10 items it
    started with, minus the sold quantities of the sale events that name
    it, plus the quantities of the refill events that name it; events that
    name no machine of the three change nothing. *)
Theorem main_program_keeps_the_books n events :
  monotone clock → books_safe 10 10 10 events →
  ∃ w', main clock (S (S n)) events = Some w'
    ∧ machine_store w'
      = [ {| id := "001"; stockLevel := 10 + net "001" events |};
          {| id := "002"; stockLevel := 10 + net "002" events |};
          {| id := "003"; stockLevel := 10 + net "003" events |} ]
    ∧ idle w'.
Proof.
  intros Hmono Hsafe. destruct (main_setup_state Hmono) as (w & Hsetup & Hst).
  destruct (main_publishes n events _ _ _ w Hmono Hst Hsafe)
    as (w' & Hp & Hst').
  exists w'. split; [|split; apply Hst'].
  unfold main. clear Hst Hst'.
  revert Hsetup Hp. generalize (new_world main_machines). intros w0.
  unfold main_setup. simpl. intros [= <-] Hp. exact Hp.
Qed.

End ServiceFacts.

(** ** The concrete program *)

(** C5.  [unsubscribe] of an observer that is not enrolled is not always a
    no-op.  With only [saleSubscriber] enrolled for Sale,
    [unsubscribe(Sale, relatedSubscriber2)], for a second object of the same
    class that was never subscribed, changes the service: it deletes the
    enrollment timestamp of [saleSubscriber], and a Sale event published
    after it is not handed to [saleSubscriber], which without that call
    receives it once. *)
Theorem unsubscribe_of_absent_observer_has_an_effect :
  (relatedSubscriber2 ∉ subscribers enrolled_world Sale)
  ∧ saleSubscriber ∈ subscribers enrolled_world Sale
  ∧ enrollment enrolled_world Sale saleSubscriber = Some 0
  ∧ unsubscribe Sale relatedSubscriber2 enrolled_world ≠ enrolled_world
  ∧ enrollment (unsubscribe Sale relatedSubscriber2 enrolled_world)
      Sale saleSubscriber = None
  ∧ (∃ w', publish tick_clock 2 event1 enrolled_world = Some w'
       ∧ invocations saleSubscriber event1 (trace w') = 1%nat)
  ∧ (∃ w', publish tick_clock 2 event1
             (unsubscribe Sale relatedSubscriber2 enrolled_world) = Some w'
       ∧ invocations saleSubscriber event1 (trace w') = 0%nat).
Proof.
  assert (subscribers enrolled_world Sale = [saleSubscriber]) as ->
    by (vm_compute; reflexivity).
  split_and!.
  - intros H. apply list_elem_of_singleton in H. discriminate H.
  - by left.
  - vm_compute. reflexivity.
  - intros H. apply (f_equal (λ w, enrollment w Sale saleSubscriber)) in H.
    vm_compute in H. discriminate H.
  - vm_compute. reflexivity.
  - eexists. split; vm_compute; reflexivity.
  - eexists. split; vm_compute; reflexivity.
Qed.

(** C2.  Events are not handed to the subscribers in the order in which
    they were enqueued when a handler publishes.  With [saleSubscriber]
    enrolled for Sale, and [lowStockWarningSubscriber] enrolled for Sale
    after it and for LowStockWarning, [publish(event1)] takes the machine
    from 3 to the threshold 2: [event1] is enqueued first and the
    LowStockWarning second, and their deliveries begin in this order, but
    the warning is delivered in full inside the [handle] of
    [saleSubscriber], while [event1] is still being delivered.  So
    [lowStockWarningSubscriber] is called with the warning first and with
    [event1] after it.  The call of [publish] returns with the queue empty
    and both events delivered. *)
Theorem nested_event_is_delivered_first :
  subscribers watching_world Sale = [saleSubscriber; lowStockWarningSubscriber]
  ∧ subscribers watching_world LowStockWarning = [lowStockWarningSubscriber]
  ∧ ∃ w', publish tick_clock 2 event1 watching_world = Some w'
      ∧ pushed (trace w') = [event1; MachineLowStockWarningEvent "001"]
      ∧ delivered (trace w') = [event1; MachineLowStockWarningEvent "001"]
      ∧ received lowStockWarningSubscriber (trace w')
        = [MachineLowStockWarningEvent "001"; event1]
      ∧ trace w'
        = [Pushing event1; Handling event1 3;
           Called saleSubscriber event1;
           Pushing (MachineLowStockWarningEvent "001");
           Handling (MachineLowStockWarningEvent "001") 4;
           Called lowStockWarningSubscriber (MachineLowStockWarningEvent "001");
           Called lowStockWarningSubscriber event1]
      ∧ idle w'.
Proof.
  split; [vm_compute; reflexivity|]. split; [vm_compute; reflexivity|].
  eexists. split; [vm_compute; reflexivity|].
  split_and!; try (vm_compute; reflexivity). split; reflexivity.
Qed.

(** The counterexample to exact subtraction: a new machine holds 10 items,
    and [consumeStock(18014398509481996)] (the amount is a double) leaves
    the double nearest to the difference, which is not the difference. *)
Lemma consumeStock_subtracts_counterexample :
  idle (new_world [new_Machine "001"])
  ∧ machine_store (new_world [new_Machine "001"]) !! 0%nat
    = Some {| id := "001"; stockLevel := 10 |}
  ∧ nearest_double 18014398509481996 = 18014398509481996
  ∧ 0 ≤ 18014398509481996
  ∧ ∃ w', consumeStock (publish tick_clock 1) 0 18014398509481996
            (new_world [new_Machine "001"]) = Some w'
      ∧ stock w' 0 = Some (-18014398509481984)
      ∧ stock w' 0 ≠ Some (10 - 18014398509481996).
Proof.
  split; [split; reflexivity|]. split; [reflexivity|].
  split; [vm_compute; reflexivity|]. split; [lia|].
  eexists. split; [vm_compute; reflexivity|].
  split; [vm_compute; reflexivity|]. vm_compute. intros H. discriminate H.
Qed.

(** The counterexample to the round trip: with 3 items in stock,
    [consumeStock(10000000000000000)] and then
    [refillStock(10000000000000000)] (the amount is a double) leave 4. *)
Lemma consume_refill_restores_counterexample :
  idle (new_world test_machines)
  ∧ machine_store (new_world test_machines) !! 0%nat
    = Some {| id := "001"; stockLevel := 3 |}
  ∧ nearest_double 10000000000000000 = 10000000000000000
  ∧ ∃ w1 w2,
      consumeStock (publish tick_clock 1) 0 10000000000000000
        (new_world test_machines) = Some w1
      ∧ refillStock (publish tick_clock 1) 0 10000000000000000 w1 = Some w2
      ∧ stock w2 0 = Some 4
      ∧ stock w2 0 ≠ Some 3.
Proof.
  split; [split; reflexivity|]. split; [reflexivity|].
  split; [vm_compute; reflexivity|].
  eexists _, _. split; [vm_compute; reflexivity|].
  split; [vm_compute; reflexivity|].
  split; [vm_compute; reflexivity|]. vm_compute. intros H. discriminate H.
Qed.

(** The scenario of the specification: a machine with 5 items and the
    threshold 2.  A sale of 3 takes it to 2 and the warning fires once; a
    sale of 1 fires nothing; a refill of 5 takes it to 6 and StockLevelOk
    fires once. *)
Example scenario_of_the_specification :
  ∃ w',
    script tick_clock 2
      [Subscribe Sale saleSubscriber;
       Subscribe Refill
         {| ref := 3; class_of := MachineRefillSubscriber; machines := [0%nat] |};
       Publish (MachineSaleEvent "X" 3);
       Publish (MachineSaleEvent "X" 1);
       Publish (MachineRefillEvent "X" 5)]
      (new_world [ {| id := "X"; stockLevel := 5 |} ]) = Some w'
    ∧ pushed (trace w')
      = [MachineSaleEvent "X" 3; MachineLowStockWarningEvent "X";
         MachineSaleEvent "X" 1;
         MachineRefillEvent "X" 5; MachineStockLevelOkEvent "X"]
    ∧ stock w' 0 = Some 6.
Proof. eexists. split_and!; vm_compute; reflexivity. Qed.

(** Two sale subscribers, as in the first test of the repository: both are
    called with the sale, and each takes the amount from the machine.  The
    warning that the first of them causes is delivered while the sale is
    still being delivered: the low-stock subscriber is called before the
    second sale subscriber. *)
Example two_sale_subscribers :
  ∃ w',
    script tick_clock 2
      [Subscribe Sale relatedSubscriber2; Publish event1] test_world = Some w'
    ∧ trace w'
      = [Pushing event1; Handling event1 2;
         Called saleSubscriber event1;
         Pushing (MachineLowStockWarningEvent "001");
         Handling (MachineLowStockWarningEvent "001") 3;
         Called lowStockWarningSubscriber (MachineLowStockWarningEvent "001");
         Called relatedSubscriber2 event1]
    ∧ stock w' 0 = Some 1.
Proof. eexists. split_and!; vm_compute; reflexivity. Qed.

(** An [undefined] item in a queue: [dequeue()] returns [undefined] though
    the queue was not empty, and the item is gone. *)
Example dequeue_of_an_undefined_item :
  Queue.returned
    (fst (Queue.dequeue (Queue.enqueue None (@Queue.new (option nat))))) = None
  ∧ Queue.head (snd (Queue.dequeue (Queue.enqueue None (@Queue.new (option nat)))))
    = None
  ∧ Queue.head (Queue.enqueue None (@Queue.new (option nat))) = Some 0%nat.
Proof. split_and!; reflexivity. Qed.

(** The books of the main program beyond the safe integers: after a sale
    of 1, a refill of [2 ^ 53] and a sale of [2 ^ 53] the machine "001"
    holds 8 items, not the 9 that the quantities add up to. *)
Example main_program_rounds :
  ∃ w', main tick_clock 2
          [MachineSaleEvent "001" 1;
           MachineRefillEvent "001" 9007199254740992;
           MachineSaleEvent "001" 9007199254740992] = Some w'
    ∧ stock w' 0 = Some 8
    ∧ 10 + net "001"
             [MachineSaleEvent "001" 1;
              MachineRefillEvent "001" 9007199254740992;
              MachineSaleEvent "001" 9007199254740992] = 9.
Proof. eexists. split_and!; vm_compute; reflexivity. Qed.

(** ** The theorems at concrete inputs *)

Ltac safe_integers :=
  repeat match goal with
         | |- _ ∧ _ => split
         | |- safe_integer _ => split; vm_compute; intros H; discriminate H
         | |- True => exact I
         end.

Lemma threshold_crossing_fires_once_witness :
  idle test_world
  ∧ machine_store test_world !! 0%nat = Some {| id := "001"; stockLevel := 3 |}
  ∧ (∃ w' tr, _addStock (publish tick_clock 1) 0 (-1) test_world = Some w'
       ∧ trace w' = trace test_world ++ tr
       ∧ pushed tr = [MachineLowStockWarningEvent "001"])
  ∧ (∃ w', adjustments (publish tick_clock 1) 0 [4; -2; 7] test_world = Some w'
       ∧ pushed (trace w') = pushed (trace test_world)).
Proof.
  assert (idle test_world) as Hi by (split; vm_compute; reflexivity).
  assert (machine_store test_world !! 0%nat
          = Some {| id := "001"; stockLevel := 3 |}) as Hm
    by (vm_compute; reflexivity).
  destruct (threshold_crossing_fires_once tick_clock 0 0
              {| id := "001"; stockLevel := 3 |} test_world Hi Hm)
    as [Hone Hmany].
  split_and!; [exact Hi|exact Hm|..].
  - destruct (Hone (-1)) as (w' & tr & Hp & Htr & _ & Hlow & _); [lia|].
    exists w', tr. split_and!; [exact Hp|exact Htr|].
    apply Hlow. unfold LowStockThreshold. simpl. lia.
  - apply Hmany. right.
    repeat (apply Forall_cons; split; [vm_compute; reflexivity|]).
    apply Forall_nil. exact I.
Defined.

Lemma deliveries_begin_in_publish_order_witness :
  idle enrolled_world
  ∧ ∃ w' tr,
      script tick_clock 2
        [Publish event1; Subscribe Refill relatedSubscriber2; Publish event2]
        enrolled_world = Some w'
      ∧ trace w' = trace enrolled_world ++ tr
      ∧ delivered tr = pushed tr
      ∧ published_by
          [Publish event1; Subscribe Refill relatedSubscriber2; Publish event2]
        `sublist_of` pushed tr
      ∧ idle w'.
Proof.
  assert (idle enrolled_world) as Hi by (split; vm_compute; reflexivity).
  split; [exact Hi|].
  exact (proj1 (deliveries_begin_in_publish_order tick_clock 0
    [Publish event1; Subscribe Refill relatedSubscriber2; Publish event2]
    enrolled_world Hi)).
Defined.

Lemma subscribe_is_idempotent_witness :
  monotone tick_clock
  ∧ idle (new_world test_machines)
  ∧ sets_ok (new_world test_machines)
  ∧ timestamps_past tick_clock (new_world test_machines)
  ∧ Nat.iter 3 (subscribe tick_clock Sale saleSubscriber)
      (new_world test_machines)
    = subscribe tick_clock Sale saleSubscriber (new_world test_machines)
  ∧ ∃ w', publish tick_clock 2 event1
            (Nat.iter 3 (subscribe tick_clock Sale saleSubscriber)
               (new_world test_machines)) = Some w'
      ∧ invocations saleSubscriber event1 (trace w')
        = S (invocations saleSubscriber event1
               (trace (new_world test_machines))).
Proof.
  assert (monotone tick_clock) as Hmono
    by (intros i j Hij; unfold tick_clock; lia).
  assert (idle (new_world test_machines)) as Hi by (split; reflexivity).
  assert (sets_ok (new_world test_machines)) as Hs.
  { intros t. unfold subscribers. simpl. rewrite lookup_empty. constructor. }
  assert (timestamps_past tick_clock (new_world test_machines)) as Hp.
  { intros k ts H. simpl in H. rewrite lookup_empty in H. discriminate H. }
  destruct (subscribe_is_idempotent tick_clock 0 Sale saleSubscriber 2
              (new_world test_machines) Hmono Hi Hs Hp) as [Hsame Hcall].
  split_and!; [exact Hmono|exact Hi|exact Hs|exact Hp|exact Hsame|].
  destruct (Hcall event1 eq_refl) as (w' & Hpub & Hcount & _).
  exists w'. split; [exact Hpub|exact Hcount].
Defined.

Lemma subscription_timing_witness :
  idle enrolled_world
  ∧ ∃ w' tr, publish tick_clock 2 event1 enrolled_world = Some w'
      ∧ trace w' = trace enrolled_world
          ++ Pushing event1
          :: Handling event1 (tick_clock (readings enrolled_world)) :: tr
      ∧ (∀ h, (0 < invocations h event1 tr)%nat →
           ∃ subscriptionTime,
             enrollment enrolled_world Sale h = Some subscriptionTime
             ∧ subscriptionTime ≤ tick_clock (readings enrolled_world))
      ∧ ∃ w'', run_microtasks tick_clock (parked w') 2
                 (subscribe tick_clock Sale relatedSubscriber2 w') = Some w''
          ∧ trace w'' = trace w'
          ∧ invocations relatedSubscriber2 event1 (trace w'')
            = invocations relatedSubscriber2 event1 (trace enrolled_world).
Proof.
  assert (idle enrolled_world) as Hi by (split; vm_compute; reflexivity).
  assert (relatedSubscriber2 ∉ subscribers enrolled_world Sale) as Hnot.
  { assert (subscribers enrolled_world Sale = [saleSubscriber]) as ->
      by (vm_compute; reflexivity).
    intros H. apply list_elem_of_singleton in H. discriminate H. }
  split; [exact Hi|].
  destruct (subscription_timing tick_clock 0 event1 enrolled_world Hi)
    as (w' & tr & Hp & Htr & _ & Hel & _ & _ & _ & Hlate).
  exists w', tr. split_and!; [exact Hp|exact Htr|exact Hel|].
  destruct (Hlate relatedSubscriber2 (parked w')) as (w'' & Hr & _ & Ht & Hno);
    [lia|].
  exists w''. split_and!; [exact Hr|exact Ht|exact (Hno Hnot)].
Defined.

Lemma consumeStock_subtracts_witness :
  idle test_world
  ∧ machine_store test_world !! 0%nat = Some {| id := "001"; stockLevel := 3 |}
  ∧ ∃ w', consumeStock (publish tick_clock 1) 0 5 test_world = Some w'
      ∧ stock w' 0 = Some (3 - 5).
Proof.
  assert (idle test_world) as Hi by (split; vm_compute; reflexivity).
  assert (machine_store test_world !! 0%nat
          = Some {| id := "001"; stockLevel := 3 |}) as Hm
    by (vm_compute; reflexivity).
  split_and!; [exact Hi|exact Hm|].
  destruct (consumeStock_subtracts tick_clock 0 0
              {| id := "001"; stockLevel := 3 |} 5 test_world Hi Hm)
    as (w' & Hp & Hexact).
  exists w'. split; [exact Hp|]. apply Hexact. safe_integers.
Defined.

Lemma subscription_key_is_shared_witness :
  saleSubscriber ≠ relatedSubscriber2
  ∧ toString saleSubscriber = toString relatedSubscriber2
  ∧ idle (new_world test_machines)
  ∧ enrollment
      (unsubscribe Sale relatedSubscriber2
         (subscribe tick_clock Sale relatedSubscriber2
            (subscribe tick_clock Sale saleSubscriber
               (new_world test_machines))))
      Sale saleSubscriber = None
  ∧ saleSubscriber
    ∈ subscribers
        (unsubscribe Sale relatedSubscriber2
           (subscribe tick_clock Sale relatedSubscriber2
              (subscribe tick_clock Sale saleSubscriber
                 (new_world test_machines))))
        Sale
  ∧ ∃ w', script tick_clock 2 (map Publish [event1; event2])
            (unsubscribe Sale relatedSubscriber2
               (subscribe tick_clock Sale relatedSubscriber2
                  (subscribe tick_clock Sale saleSubscriber
                     (new_world test_machines)))) = Some w'
      ∧ invocations saleSubscriber event1 (trace w') = O.
Proof.
  assert (saleSubscriber ≠ relatedSubscriber2) as Hne by (intros H; discriminate H).
  assert (idle (new_world test_machines)) as Hi by (split; reflexivity).
  destruct (subscription_key_is_shared tick_clock 0 Sale saleSubscriber
              relatedSubscriber2 (new_world test_machines) Hne eq_refl Hi)
    as (_ & _ & _ & _ & _ & _ & Hnone & Hin & Hlater).
  split_and!; [exact Hne|reflexivity|exact Hi|exact Hnone|exact Hin|].
  destruct (Hlater [event1; event2]) as (w' & Hr & Hcalls & _).
  exists w'. split; [exact Hr|]. exact (Hcalls event1 eq_refl).
Defined.

Lemma consume_refill_restores_witness :
  idle test_world
  ∧ machine_store test_world !! 0%nat = Some {| id := "001"; stockLevel := 3 |}
  ∧ (∃ w1 w2, consumeStock (publish tick_clock 1) 0 2 test_world = Some w1
       ∧ refillStock (publish tick_clock 1) 0 2 w1 = Some w2
       ∧ stock w2 0 = Some 3)
  ∧ (∃ w1 w2, refillStock (publish tick_clock 1) 0 2 test_world = Some w1
       ∧ consumeStock (publish tick_clock 1) 0 2 w1 = Some w2
       ∧ stock w2 0 = Some 3).
Proof.
  assert (idle test_world) as Hi by (split; vm_compute; reflexivity).
  assert (machine_store test_world !! 0%nat
          = Some {| id := "001"; stockLevel := 3 |}) as Hm
    by (vm_compute; reflexivity).
  destruct (consume_refill_restores tick_clock 0 0
              {| id := "001"; stockLevel := 3 |} 2 test_world Hi Hm eq_refl)
    as [(w1 & w2 & Hc & Hr & Hback) (w1' & w2' & Hr' & Hc' & Hback')].
  split_and!; [exact Hi|exact Hm|..].
  - exists w1, w2. split_and!; [exact Hc|exact Hr|].
    apply Hback. safe_integers.
  - exists w1', w2'. split_and!; [exact Hr'|exact Hc'|].
    apply Hback'. safe_integers.
Defined.

(** ** The further properties at concrete inputs *)

Lemma queue_conserves_items_witness :
  Queue.represents (@Queue.new nat) []
  ∧ ∃ l, Queue.represents
           (snd (Queue.run [Queue.Enqueue 1%nat; Queue.Enqueue 2%nat;
                            Queue.Dequeue; Queue.Enqueue 3%nat]
                   Queue.new)) l
      ∧ dequeued (fst (Queue.run [Queue.Enqueue 1%nat; Queue.Enqueue 2%nat;
                                  Queue.Dequeue; Queue.Enqueue 3%nat]
                         Queue.new)) ++ l
        = [] ++ [1; 2; 3]%nat.
Proof.
  assert (Queue.represents (@Queue.new nat) []) as Hnew.
  { split; [|split; reflexivity]. intros a [x Hx]. simpl in Hx.
    rewrite lookup_empty in Hx. discriminate Hx. }
  split; [exact Hnew|].
  exact (QueueFacts.queue_conserves_items
           [Queue.Enqueue 1%nat; Queue.Enqueue 2%nat; Queue.Dequeue;
            Queue.Enqueue 3%nat] Queue.new [] Hnew).
Defined.

Lemma dequeue_undefined_iff_empty_witness :
  Queue.represents (@Queue.new (option nat)) []
  ∧ (Queue.returned (fst (Queue.dequeue (@Queue.new (option nat)))) = None
     ↔ @nil (option nat) = [] ∨ ∃ l', @nil (option nat) = None :: l')
  ∧ snd (Queue.dequeue (@Queue.new (option nat))) = Queue.new.
Proof.
  assert (Queue.represents (@Queue.new (option nat)) []) as Hnew.
  { split; [|split; reflexivity]. intros a [x Hx]. simpl in Hx.
    rewrite lookup_empty in Hx. discriminate Hx. }
  split; [exact Hnew|].
  destruct (QueueFacts.dequeue_undefined_iff_empty Queue.new [] Hnew)
    as (Hiff & _ & Hsame & _).
  split; [exact Hiff|exact (Hsame eq_refl)].
Defined.

Lemma handlers_called_in_subscription_order_witness :
  idle two_sale_world
  ∧ ∃ w' tr, publish tick_clock 2 event1 two_sale_world = Some w'
      ∧ handlers_called event1 tr
        = filter (λ h, eligible two_sale_world Sale
                         (tick_clock (readings two_sale_world)) h)
            (subscribers two_sale_world Sale).
Proof.
  assert (idle two_sale_world) as Hi by (split; vm_compute; reflexivity).
  split; [exact Hi|].
  destruct (handlers_called_in_subscription_order tick_clock 0 event1
              two_sale_world Hi) as (w' & tr & Hp & _ & Hc & _).
  exists w', tr. split; [exact Hp|exact Hc].
Defined.

Lemma publish_moves_stock_witness :
  idle two_sale_world
  ∧ ∃ w', publish tick_clock 2 event1 two_sale_world = Some w'
      ∧ machine_store w'
        = foldl (handle_machines event1) (machine_store two_sale_world)
            (filter (λ h, eligible two_sale_world Sale
                            (tick_clock (readings two_sale_world)) h)
               (subscribers two_sale_world Sale)).
Proof.
  assert (idle two_sale_world) as Hi by (split; vm_compute; reflexivity).
  split; [exact Hi|].
  exact (publish_moves_stock tick_clock 0 event1 two_sale_world Hi).
Defined.

Lemma sale_is_taken_once_per_subscriber_witness :
  idle two_sale_world
  ∧ machine_store two_sale_world !! 0%nat
    = Some {| id := "001"; stockLevel := 3 |}
  ∧ (∀ h, h ∈ subscribers two_sale_world Sale →
       class_of h = MachineSaleSubscriber
       ∧ getEventMachine h (MachineSaleEvent "001" 1) two_sale_world
         = Some 0%nat)
  ∧ sums_safe 3 [-1; -1]
  ∧ ∃ w', publish tick_clock 2 (MachineSaleEvent "001" 1) two_sale_world
          = Some w'
      ∧ stock w' 0
        = Some (3 - 1 * Z.of_nat
                  (length (filter
                     (λ h, eligible two_sale_world Sale
                             (tick_clock (readings two_sale_world)) h)
                     (subscribers two_sale_world Sale)))).
Proof.
  assert (idle two_sale_world) as Hi by (split; vm_compute; reflexivity).
  assert (machine_store two_sale_world !! 0%nat
          = Some {| id := "001"; stockLevel := 3 |}) as Hm
    by (vm_compute; reflexivity).
  assert (∀ h, h ∈ subscribers two_sale_world Sale →
            class_of h = MachineSaleSubscriber
            ∧ getEventMachine h (MachineSaleEvent "001" 1) two_sale_world
              = Some 0%nat) as Hall.
  { assert (subscribers two_sale_world Sale
            = [saleSubscriber; relatedSubscriber2]) as ->
      by (vm_compute; reflexivity).
    intros h Hh. apply elem_of_cons in Hh as [->|Hh].
    - split; vm_compute; reflexivity.
    - apply list_elem_of_singleton in Hh as ->. split; vm_compute; reflexivity. }
  assert (sums_safe 3 [-1; -1]) as Hsafe by (simpl; safe_integers).
  split_and!; [exact Hi|exact Hm|exact Hall|exact Hsafe|].
  exact (sale_is_taken_once_per_subscriber tick_clock 0 "001" 1 0
           {| id := "001"; stockLevel := 3 |} two_sale_world Hi Hm Hall Hsafe).
Defined.

Lemma ignored_event_changes_nothing_witness :
  idle test_world
  ∧ (∀ h, h ∈ subscribers test_world Sale →
       ignores test_world (MachineSaleEvent "999" 1) h)
  ∧ ∃ w', publish tick_clock 1 (MachineSaleEvent "999" 1) test_world = Some w'
      ∧ machine_store w' = machine_store test_world.
Proof.
  assert (idle test_world) as Hi by (split; vm_compute; reflexivity).
  assert (∀ h, h ∈ subscribers test_world Sale →
            ignores test_world (MachineSaleEvent "999" 1) h) as Hig.
  { assert (subscribers test_world Sale = [saleSubscriber]) as ->
      by (vm_compute; reflexivity).
    intros h Hh. apply list_elem_of_singleton in Hh as ->.
    right. vm_compute. reflexivity. }
  split_and!; [exact Hi|exact Hig|].
  destruct (ignored_event_changes_nothing tick_clock 0
              (MachineSaleEvent "999" 1) test_world Hi Hig)
    as (w' & Hp & Hm & _).
  exists w'. split; [exact Hp|exact Hm].
Defined.

Lemma derived_event_is_inert_witness :
  derived (MachineLowStockWarningEvent "001") = true
  ∧ idle test_world
  ∧ ∃ w', publish tick_clock 1 (MachineLowStockWarningEvent "001") test_world
          = Some w'
      ∧ machine_store w' = machine_store test_world
      ∧ pushed (trace w')
        = pushed (trace test_world) ++ [MachineLowStockWarningEvent "001"].
Proof.
  assert (idle test_world) as Hi by (split; vm_compute; reflexivity).
  split_and!; [reflexivity|exact Hi|].
  destruct (derived_event_is_inert tick_clock 0
              (MachineLowStockWarningEvent "001") test_world eq_refl Hi)
    as (w' & Hp & Hm & Hpu & _).
  exists w'. split_and!; [exact Hp|exact Hm|exact Hpu].
Defined.

Lemma publish_keeps_registry_witness :
  idle test_world
  ∧ ∃ w', script tick_clock 2 (map Publish [event1; event2; event3])
            test_world = Some w'
      ∧ _subscriptions w' = _subscriptions test_world
      ∧ _subscriptionTimestamps w' = _subscriptionTimestamps test_world.
Proof.
  assert (idle test_world) as Hi by (split; vm_compute; reflexivity).
  split; [exact Hi|].
  destruct (publish_keeps_registry tick_clock 0 [event1; event2; event3]
              test_world Hi) as (w' & tr & Hp & Hs & Ht & _).
  exists w'. split_and!; [exact Hp|exact Hs|exact Ht].
Defined.

Lemma parked_activations_deliver_nothing_witness :
  idle test_world
  ∧ ∃ w', script tick_clock 2 [Publish event1; Publish event2] test_world
          = Some w'
      ∧ run_microtasks tick_clock (parked w') 2 w' = Some (with_parked O w').
Proof.
  assert (idle test_world) as Hi by (split; vm_compute; reflexivity).
  split; [exact Hi|].
  destruct (parked_activations_deliver_nothing tick_clock 0
              [Publish event1; Publish event2] test_world Hi)
    as (w' & Hp & Hrun).
  exists w'. split; [exact Hp|]. apply Hrun. lia.
Defined.

Lemma subscribe_unsubscribe_round_trip_witness :
  (lowStockWarningSubscriber ∉ subscribers enrolled_world Sale)
  ∧ enrollment enrolled_world Sale lowStockWarningSubscriber = None
  ∧ subscribers
      (unsubscribe Sale lowStockWarningSubscriber
         (subscribe tick_clock Sale lowStockWarningSubscriber enrolled_world))
      Sale
    = subscribers enrolled_world Sale
  ∧ _subscriptionTimestamps
      (unsubscribe Sale lowStockWarningSubscriber
         (subscribe tick_clock Sale lowStockWarningSubscriber enrolled_world))
    = _subscriptionTimestamps enrolled_world.
Proof.
  assert (lowStockWarningSubscriber ∉ subscribers enrolled_world Sale) as Hnot.
  { assert (subscribers enrolled_world Sale = [saleSubscriber]) as ->
      by (vm_compute; reflexivity).
    intros H. apply list_elem_of_singleton in H. discriminate H. }
  assert (enrollment enrolled_world Sale lowStockWarningSubscriber = None)
    as Hnone by (vm_compute; reflexivity).
  destruct (subscribe_unsubscribe_round_trip tick_clock Sale
              lowStockWarningSubscriber enrolled_world Hnot Hnone)
    as (Hsubs & Hts & _).
  split_and!; [exact Hnot|exact Hnone|exact (Hsubs Sale)|exact Hts].
Defined.

Lemma other_types_untouched_witness :
  Refill ≠ Sale
  ∧ subscribers (subscribe tick_clock Sale relatedSubscriber2 test_world) Refill
    = subscribers test_world Refill
  ∧ enrollment (unsubscribe Sale saleSubscriber test_world)
      Refill saleSubscriber
    = enrollment test_world Refill saleSubscriber.
Proof.
  assert (Refill ≠ Sale) as Hne by (intros H; discriminate H).
  split; [exact Hne|]. split.
  - exact (proj1 (other_types_untouched tick_clock Sale Refill
                    relatedSubscriber2 saleSubscriber test_world Hne)).
  - exact (proj2 (proj2 (proj2 (other_types_untouched tick_clock Sale Refill
                    saleSubscriber saleSubscriber test_world Hne)))).
Defined.

Lemma unsubscribe_silences_witness :
  idle test_world
  ∧ unsubscribe Sale saleSubscriber (unsubscribe Sale saleSubscriber test_world)
    = unsubscribe Sale saleSubscriber test_world
  ∧ ∃ w', script tick_clock 2 (map Publish [event1; event2])
            (unsubscribe Sale saleSubscriber test_world) = Some w'
      ∧ invocations saleSubscriber event1 (trace w')
        = invocations saleSubscriber event1 (trace test_world).
Proof.
  assert (idle test_world) as Hi by (split; vm_compute; reflexivity).
  destruct (unsubscribe_silences tick_clock 0 Sale saleSubscriber test_world Hi)
    as (Hagain & _ & Hlater).
  split_and!; [exact Hi|exact Hagain|].
  destruct (Hlater [event1; event2]) as (w' & Hp & Hcalls).
  exists w'. split; [exact Hp|exact (Hcalls event1 eq_refl)].
Defined.

Lemma _addStock_touches_one_machine_witness :
  idle test_world
  ∧ ∃ w', _addStock (publish tick_clock 1) 0 (-2) test_world = Some w'
      ∧ length (machine_store w') = length (machine_store test_world)
      ∧ _subscriptions w' = _subscriptions test_world.
Proof.
  assert (idle test_world) as Hi by (split; vm_compute; reflexivity).
  split; [exact Hi|].
  destruct (_addStock_touches_one_machine tick_clock 0 0 (-2) test_world Hi)
    as (w' & Hp & Hlen & _ & _ & Hs & _).
  exists w'. split_and!; [exact Hp|exact Hlen|exact Hs].
Defined.

Lemma adjustments_add_up_witness :
  idle test_world
  ∧ machine_store test_world !! 0%nat = Some {| id := "001"; stockLevel := 3 |}
  ∧ sums_safe 3 [-2; 5; -7]
  ∧ ∃ w', adjustments (publish tick_clock 1) 0 [-2; 5; -7] test_world = Some w'
      ∧ machine_store w' !! 0%nat
        = Some {| id := "001"; stockLevel := 3 + (-2 + (5 + (-7 + 0))) |}.
Proof.
  assert (idle test_world) as Hi by (split; vm_compute; reflexivity).
  assert (machine_store test_world !! 0%nat
          = Some {| id := "001"; stockLevel := 3 |}) as Hm
    by (vm_compute; reflexivity).
  assert (sums_safe 3 [-2; 5; -7]) as Hsafe by (simpl; safe_integers).
  split_and!; [exact Hi|exact Hm|exact Hsafe|].
  destruct (adjustments_add_up tick_clock 0 0 [-2; 5; -7]
              {| id := "001"; stockLevel := 3 |} test_world Hi Hm)
    as (w' & Hp & _ & Hm').
  exists w'. split; [exact Hp|exact (Hm' Hsafe)].
Defined.

Lemma crossing_events_alternate_witness :
  idle test_world
  ∧ machine_store test_world !! 0%nat = Some {| id := "001"; stockLevel := 3 |}
  ∧ ∃ w' tr, adjustments (publish tick_clock 1) 0 [-2; 5; -7] test_world
             = Some w'
      ∧ trace w' = trace test_world ++ tr
      ∧ alternating false "001" (pushed tr).
Proof.
  assert (idle test_world) as Hi by (split; vm_compute; reflexivity).
  assert (machine_store test_world !! 0%nat
          = Some {| id := "001"; stockLevel := 3 |}) as Hm
    by (vm_compute; reflexivity).
  split_and!; [exact Hi|exact Hm|].
  exact (crossing_events_alternate tick_clock 0 0 [-2; 5; -7]
           {| id := "001"; stockLevel := 3 |} test_world Hi Hm).
Defined.

Lemma enrolled_is_eligible_witness :
  monotone tick_clock
  ∧ ∃ w', script tick_clock 2
            [Subscribe Sale saleSubscriber; Publish event1]
            (new_world test_machines) = Some w'
      ∧ (eligible w' Sale (tick_clock (readings w')) saleSubscriber
         ↔ is_Some (enrollment w' Sale saleSubscriber)).
Proof.
  assert (monotone tick_clock) as Hmono
    by (intros i j Hij; unfold tick_clock; lia).
  split; [exact Hmono|].
  destruct (enrolled_is_eligible tick_clock 0
              [Subscribe Sale saleSubscriber; Publish event1] test_machines
              Hmono) as (w' & Hp & Hel).
  exists w'. split; [exact Hp|]. apply Hel. lia.
Defined.

Lemma main_program_keeps_the_books_witness :
  monotone tick_clock
  ∧ books_safe 10 10 10
      [MachineSaleEvent "001" 2; MachineRefillEvent "003" 4;
       MachineSaleEvent "001" 1; MachineSaleEvent "002" 2;
       MachineSaleEvent "001" 2]
  ∧ ∃ w', main tick_clock 2
            [MachineSaleEvent "001" 2; MachineRefillEvent "003" 4;
             MachineSaleEvent "001" 1; MachineSaleEvent "002" 2;
             MachineSaleEvent "001" 2] = Some w'
      ∧ machine_store w'
        = [ {| id := "001"; stockLevel := 10 + -5 |};
            {| id := "002"; stockLevel := 10 + -2 |};
            {| id := "003"; stockLevel := 10 + 4 |} ].
Proof.
  assert (monotone tick_clock) as Hmono
    by (intros i j Hij; unfold tick_clock; lia).
  assert (books_safe 10 10 10
            [MachineSaleEvent "001" 2; MachineRefillEvent "003" 4;
             MachineSaleEvent "001" 1; MachineSaleEvent "002" 2;
             MachineSaleEvent "001" 2]) as Hsafe
    by (simpl; safe_integers).
  split; [exact Hmono|]. split; [exact Hsafe|].
  destruct (main_program_keeps_the_books tick_clock 0
              [MachineSaleEvent "001" 2; MachineRefillEvent "003" 4;
               MachineSaleEvent "001" 1; MachineSaleEvent "002" 2;
               MachineSaleEvent "001" 2] Hmono Hsafe) as (w' & Hp & Hm & _).
  exists w'. split; [exact Hp|exact Hm].
Defined.

Lemma publish_touches_only_the_named_machine_witness :
  idle test_world
  ∧ ∃ w', publish tick_clock 2 (MachineSaleEvent "002" 1) test_world = Some w'
      ∧ length (machine_store w') = length (machine_store test_world)
      ∧ machine_store w' !! 0%nat = Some {| id := "001"; stockLevel := 3 |}.
Proof.
  assert (idle test_world) as Hi by (split; vm_compute; reflexivity).
  split; [exact Hi|].
  destruct (publish_touches_only_the_named_machine tick_clock 0
              (MachineSaleEvent "002" 1) test_world Hi)
    as (w' & Hp & Hlen & _ & Hother).
  exists w'. split_and!; [exact Hp|exact Hlen|].
  apply Hother; [vm_compute; reflexivity|]. intros H. discriminate H.
Defined.
